(** * ofxAI: behaviour trees, the behaviour-tree VM and the utility selector

    A shallow embedding of [src/ofxBehaviourTree.{h,cpp}],
    [src/ofxBehaviourTreeVM.{h,cpp}] and [src/ofxUtilityAI.{h,cpp}].

    Conventions shared by the three modules:
    - a C++ method that mutates the object it is handed by pointer becomes a
      function from the state before to the state after;
    - a [bool] result with an out-parameter becomes an [option];
    - a call that gives no result in C++ (a null pointer dereferenced,
      [std::stack::pop] on an empty stack, a vector indexed out of range,
      an empty [std::function] called) is [Undefined]; a recursion that has
      not finished within the fuel it was given is [OutOfFuel];
    - a function that calls what it was handed (children, conditions,
      actions, leaves, the fact store) also returns the list of those
      calls, in the order it made them.  The list is a ghost: nothing in
      the control flow reads it. *)

From stdpp Require Import base option list strings gmap.
From Stdlib Require Import Ascii ZArith Lia.

Set Default Proof Using "Type".
Open Scope string_scope.
Open Scope list_scope.
Open Scope nat_scope.

(** ** Results and calls *)

Inductive Outcome (A : Type) : Type :=
| Returns (a : A)
| Undefined
| OutOfFuel.
Arguments Returns {A} a.
Arguments Undefined {A}.
Arguments OutOfFuel {A}.

(** The calls a function makes on what it was handed. *)
Inductive Call : Type :=
| call_getFact (name : string)  (* blackboard->getFact(name, _) *)
| call_child (i : nat)          (* m_children[i]->tick(tree), m_child->tick(tree) *)
| call_condition (i : nat)      (* m_strategies[i]->m_condition->tick(tree) *)
| call_action (i : nat)         (* m_strategies[i]->m_action->tick(tree) *)
| call_leaf (i : nat)           (* m_leaves[i](thread, blackboard) *)
| call_run (i : option nat).    (* chosen->second(), of qualifiers[i] or the default *)

Module BehaviourTree.

(** [enum class Status], ofxBehaviourTree.h:11. *)
Inductive Status : Type := Invalid | Success | Failure | Running.

#[export] Instance Status_eq_dec : EqDecision Status.
Proof. solve_decision. Defined.

(** [class Blackboard], ofxBehaviourTree.h:20: the four virtual operations.
    [getFact] is const and fills its out-parameter only when it returns
    true. *)
Class Blackboard (B : Type) : Type := {
  setFact : string → string → B → B;
  getFact : B → string → option string;
  removeFact : string → B → B;
  factExists : B → string → bool
}.

(** [class DictBlackboard], ofxBehaviourTree.cpp:20, the default store. *)
Record DictBlackboard : Type := mkDict { m_dict : gmap string string }.

#[export] Instance DictBlackboard_Blackboard : Blackboard DictBlackboard := {
  setFact factName data this := mkDict (<[factName := data]> (m_dict this));
  getFact this fact := m_dict this !! fact;
  removeFact factName this := mkDict (delete factName (m_dict this));
  factExists this factName := bool_decide (is_Some (m_dict this !! factName))
}.

(** [class NodeScope], ofxBehaviourTree.h:336. *)
Record NodeScope : Type := mkScope { m_values : gmap string string }.

(** [NodeScope::getScopeVar], ofxBehaviourTree.cpp:544. *)
Definition getScopeVar (this : NodeScope) (key : string) : option string :=
  m_values this !! key.

(** A data member of an object: [indeterminate] as long as nothing has
    initialised or assigned it, as a pointer member without an initialiser
    is after the constructor. *)
Inductive Member (A : Type) : Type :=
  | indeterminate
  | holds (a : A).
Arguments indeterminate {A}.
Arguments holds {A} a.

Section Engine.
Context {B : Type} `{!Blackboard B}.
(** Whatever the host's leaf and decorator callables capture, and the fields
    child objects keep between ticks: a tick may change all of it. *)
Context {Host : Type}.

(** [class Tree], ofxBehaviourTree.h:345, as a tick sees it through its
    [Tree*] argument: the fact store, the scope stack (top first) and the
    host state.  [m_root] is the node being ticked; the functions below take
    it as an argument. *)
Record Tree : Type := mkTree {
  m_blackboard : B;
  m_scopeStack : list NodeScope;
  m_host : Host
}.

(** [Tree::getScopedVar], ofxBehaviourTree.cpp:471: the top frame only. *)
Definition getScopedVar (this : Tree) (varName : string) : option string :=
  match m_scopeStack this with
  | [] => None
  | top :: _ => getScopeVar top varName
  end.

(** [Tree::pushScope], ofxBehaviourTree.cpp:477. *)
Definition pushScope (scope : NodeScope) (this : Tree) : Tree :=
  mkTree (m_blackboard this) (scope :: m_scopeStack this) (m_host this).

(** [Tree::popScope], ofxBehaviourTree.cpp:481; [std::stack::pop] on an
    empty stack is undefined. *)
Definition popScope (this : Tree) : Outcome Tree :=
  match m_scopeStack this with
  | [] => Undefined
  | _ :: below => Returns (mkTree (m_blackboard this) below (m_host this))
  end.

(** [Blackboard::getFactRef], ofxBehaviourTree.cpp:514.  [tree] is the
    [const Tree*] argument, [None] for a null pointer.  The C++ function
    recurses on a value read from the scope frame, so nothing bounds its
    depth: the model recurses on [fuel].  The callers in the source pass the
    same string as [factName] and as [result] ([getFactRef(temp, temp, tree)],
    [getScopedVar(temp, temp)]); every such call copies what it needs out
    of [factName] before it writes [result], so the aliasing changes
    nothing.  What [result] holds when the function returns false is read
    by no caller and is not modelled. *)
Fixpoint getFactRef (fuel : nat) (this : B) (factName : string)
    (tree : option Tree) : list Call * Outcome (option string) :=
  match fuel with
  | O => ([], OutOfFuel)
  | S fuel =>
    match factName with
    | EmptyString => ([], Returns None)
    | String c temp =>
      if Ascii.eqb c "#"%char then
        match tree with
        | None => ([], Returns None)
        | Some tr =>
          match getScopedVar tr temp with
          | None => ([], Returns None)
          | Some temp' => getFactRef fuel this temp' tree
          end
        end
      else if Ascii.eqb c "@"%char then
        match getFactRef fuel this temp tree with
        | (log, Returns (Some temp')) =>
            (log ++ [call_getFact temp'], Returns (getFact this temp'))
        | (log, Returns None) => (log, Returns None)
        | (log, Undefined) => (log, Undefined)
        | (log, OutOfFuel) => (log, OutOfFuel)
        end
      else ([], Returns (Some factName))
    end
  end.

(** ** Ticks *)

(** [BaseNode::tick] of some node, seen from its parent: a virtual call that
    may change the tree and the host state. *)
Definition NodeTick : Type := Tree → Outcome (Status * Tree).

(** [BaseNode::NodePtr]: [None] is the null pointer. *)
Definition NodePtr : Type := option NodeTick.

(** A computation inside one [tick]: it reads and writes the tree and logs
    its calls. *)
Definition M (A : Type) : Type := Tree → list Call * Outcome (A * Tree).

#[export] Instance M_ret : MRet M := λ A a tree, ([], Returns (a, tree)).
#[export] Instance M_bind : MBind M := λ A A' k m tree,
  match m tree with
  | (log, Returns (a, tree')) =>
      let '(log', r) := k a tree' in (log ++ log', r)
  | (log, Undefined) => (log, Undefined)
  | (log, OutOfFuel) => (log, OutOfFuel)
  end.

(** The primitive steps of [M]. *)
Definition undefined {A : Type} : M A := λ _, ([], Undefined).
Definition get_tree : M Tree := λ tree, ([], Returns (tree, tree)).
Definition update_tree (f : Tree → Outcome Tree) : M unit := λ tree,
  match f tree with
  | Returns tree' => ([], Returns (tt, tree'))
  | Undefined => ([], Undefined)
  | OutOfFuel => ([], OutOfFuel)
  end.
(** A const call: it logs and may fail to return, the tree is untouched. *)
Definition const_call {A : Type} (r : list Call * Outcome A) : M A := λ tree,
  match r with
  | (log, Returns a) => (log, Returns (a, tree))
  | (log, Undefined) => (log, Undefined)
  | (log, OutOfFuel) => (log, OutOfFuel)
  end.

(** [ptr->tick(tree)], logged as [c]; a null [ptr] is dereferenced. *)
Definition deref_tick (c : Call) (ptr : NodePtr) : M Status := λ tree,
  match ptr with
  | None => ([], Undefined)
  | Some node => ([c], node tree)
  end.

(** [LeafNode::tick], ofxBehaviourTree.cpp:50.  [m_tick] is the
    [std::function], [None] when it is empty; the callable is taken with
    [m_params] already applied. *)
Definition LeafNode_tick (m_tick : option NodeTick) : NodeTick := λ tree,
  match m_tick with
  | None => Returns (Invalid, tree)
  | Some f => f tree
  end.

(** [SelectorNode::tick], ofxBehaviourTree.cpp:78.  [i] is the position of
    the head of [m_children] in the vector. *)
Fixpoint SelectorNode_loop (i : nat) (m_children : list NodePtr) : M Status :=
  match m_children with
  | [] => mret Success
  | child :: rest =>
    match child with
    | None => mret Invalid
    | Some _ =>
        status ← deref_tick (call_child i) child;
        if decide (status ≠ Failure) then mret status
        else SelectorNode_loop (S i) rest
    end
  end.

Definition SelectorNode_tick (m_children : list NodePtr) : M Status :=
  match m_children with
  | [] => mret Invalid
  | _ => SelectorNode_loop 0 m_children
  end.

(** [SequenceNode::tick], ofxBehaviourTree.cpp:99. *)
Fixpoint SequenceNode_loop (i : nat) (m_children : list NodePtr) : M Status :=
  match m_children with
  | [] => mret Success
  | child :: rest =>
    match child with
    | None => mret Invalid
    | Some _ =>
        status ← deref_tick (call_child i) child;
        if decide (status ≠ Success) then mret status
        else SequenceNode_loop (S i) rest
    end
  end.

Definition SequenceNode_tick (m_children : list NodePtr) : M Status :=
  match m_children with
  | [] => mret Invalid
  | _ => SequenceNode_loop 0 m_children
  end.

(** [ParallelNode::tick], ofxBehaviourTree.cpp:126: the body is
    [return Status();], and a value-initialised [Status] is its first
    enumerator, [Invalid].  [m_threshold] is a [size_t]. *)
Definition ParallelNode_tick (m_threshold : N) (m_children : list NodePtr)
    : M Status :=
  mret Invalid.

(** [RepeatDecoratorNode::tick], ofxBehaviourTree.cpp:186.  The loop counts
    [i] down from [m_loopCount] (a [size_t]) to zero; [status] is the local
    the loop assigns. *)
Fixpoint RepeatDecoratorNode_loop (i : nat) (m_child : NodePtr)
    (status : Status) : M Status :=
  match i with
  | O => mret status
  | S i' =>
      status ← deref_tick (call_child 0) m_child;
      if decide (status = Running ∨ status = Invalid) then mret status
      else RepeatDecoratorNode_loop i' m_child status
  end.

Definition RepeatDecoratorNode_tick (m_loopCount : nat) (m_child : NodePtr)
    : M Status :=
  match m_child with
  | None => mret Invalid
  | Some _ => RepeatDecoratorNode_loop m_loopCount m_child Invalid
  end.

(** [RepeatWhileSuccessfulNode::tick], ofxBehaviourTree.cpp:207: no test of
    [child] before [child->tick(tree)]. *)
Fixpoint RepeatWhileSuccessfulNode_loop (i : nat) (m_children : list NodePtr)
    : M Status :=
  match m_children with
  | [] => mret Running
  | child :: rest =>
      status ← deref_tick (call_child i) child;
      if decide (status ≠ Success) then mret status
      else RepeatWhileSuccessfulNode_loop (S i) rest
  end.

Definition RepeatWhileSuccessfulNode_tick (m_children : list NodePtr)
    : M Status :=
  match m_children with
  | [] => mret Invalid
  | _ => RepeatWhileSuccessfulNode_loop 0 m_children
  end.

(** [RepeatWhileFailureNode::tick], ofxBehaviourTree.cpp:223. *)
Fixpoint RepeatWhileFailureNode_loop (i : nat) (m_children : list NodePtr)
    : M Status :=
  match m_children with
  | [] => mret Running
  | child :: rest =>
      status ← deref_tick (call_child i) child;
      if decide (status ≠ Failure) then mret status
      else RepeatWhileFailureNode_loop (S i) rest
  end.

Definition RepeatWhileFailureNode_tick (m_children : list NodePtr)
    : M Status :=
  match m_children with
  | [] => mret Invalid
  | _ => RepeatWhileFailureNode_loop 0 m_children
  end.

(** [ScopeNode::tick], ofxBehaviourTree.cpp:306.  [m_params] is a
    [std::map]; the loop visits its entries in key order, and [items] is
    that sequence of (name, reference) pairs.  [params] is the local map the
    loop fills. *)
Fixpoint ScopeNode_resolve (fuel : nat) (blackboard : B) (tree : Tree)
    (items : list (string * string)) (params : gmap string string)
    : list Call * Outcome (option (gmap string string)) :=
  match items with
  | [] => ([], Returns (Some params))
  | item :: rest =>
    match getFactRef fuel blackboard item.2 (Some tree) with
    | (log, Returns None) => (log, Returns None)
    | (log, Returns (Some temp)) =>
        let '(log', r) :=
          ScopeNode_resolve fuel blackboard tree rest (<[item.1 := temp]> params)
        in (log ++ log', r)
    | (log, Undefined) => (log, Undefined)
    | (log, OutOfFuel) => (log, OutOfFuel)
    end
  end.

Definition ScopeNode_tick (fuel : nat) (m_params : list (string * string))
    (m_child : NodePtr) : M Status :=
  tree ← get_tree;
  resolved ← const_call
    (ScopeNode_resolve fuel (m_blackboard tree) tree m_params ∅);
  match resolved with
  | None => mret Invalid
  | Some params =>
      _ ← update_tree (λ t, Returns (pushScope (mkScope params) t));
      result ← deref_tick (call_child 0) m_child;
      _ ← update_tree popScope;
      mret result
  end.

(** [class StrategyNode], ofxBehaviourTree.cpp:326: the two children. *)
Record StrategyNode : Type := mkStrategy {
  m_condition : NodePtr;
  m_action : NodePtr
}.

(** The body of [DecisionNode::tick], ofxBehaviourTree.cpp:342, from the
    value it reads in [m_current].  [m_current] points into [m_strategies];
    the model keeps the position it points at, [None] for the null pointer,
    and returns the new [m_current] with the status. *)
Fixpoint DecisionNode_scan (i : nat)
    (m_strategies : list (option StrategyNode)) : M (Status * option nat) :=
  match m_strategies with
  | [] => mret (Invalid, None)
  | strategy :: rest =>
    match strategy with
    | None => undefined
    | Some st =>
        condition ← deref_tick (call_condition i) (m_condition st);
        if decide (condition = Success) then
          result ← deref_tick (call_action i) (m_action st);
          mret (result, if decide (result = Running) then Some i else None)
        else if decide (condition ≠ Failure) then mret (condition, None)
        else DecisionNode_scan (S i) rest
    end
  end.

Definition DecisionNode_tick (m_strategies : list (option StrategyNode))
    (m_current : option nat) : M (Status * option nat) :=
  match m_current with
  | Some k =>
    match m_strategies !! k with
    | Some (Some st) =>
        result ← deref_tick (call_action k) (m_action st);
        mret (result, if decide (result ≠ Running) then None else Some k)
    | _ => undefined
    end
  | None => DecisionNode_scan 0 m_strategies
  end.

(** [class DecisionNode], ofxBehaviourTree.cpp:336: the strategies and the
    raw pointer [m_current] (lines 369-370). *)
Record DecisionNode : Type := mkDecisionNode {
  m_strategies : list (option StrategyNode);
  m_current : Member (option nat)
}.

(** The constructor, ofxBehaviourTree.cpp:340.  Its initialiser list is
    [BaseNode(ref), m_strategies(std::move(strategies))] and its body is
    empty: [m_current] has no initialiser, in the constructor or at its
    declaration. *)
Definition DecisionNode_new (strategies : list (option StrategyNode))
    : DecisionNode :=
  mkDecisionNode strategies indeterminate.

(** [DecisionNode::tick] on the object.  The test [if (m_current)] at
    line 344 reads the member before anything else: reading a pointer that
    is indeterminate is undefined.  Otherwise the body runs from the value
    read, and the object keeps the value the body leaves in [m_current]. *)
Definition DecisionNode_tick_this (this : DecisionNode)
    : M (Status * DecisionNode) :=
  match m_current this with
  | indeterminate => undefined
  | holds current =>
      r ← DecisionNode_tick (m_strategies this) current;
      mret (r.1, mkDecisionNode (m_strategies this) (holds r.2))
  end.

(** ** What the children do

    [yields children tree outcomes tree']: every pointer in [children] is
    set, and ticking them one after the other from [tree], each in the state
    the one before left, gives [outcomes] and ends in [tree']. *)
Inductive yields : list NodePtr → Tree → list Status → Tree → Prop :=
| yields_nil tree : yields [] tree [] tree
| yields_cons node rest tree s tree1 ss tree2 :
    node tree = Returns (s, tree1) →
    yields rest tree1 ss tree2 →
    yields (Some node :: rest) tree (s :: ss) tree2.

(** The four children loops of the source differ in three places: whether
    a null child is tested for, the status that lets the loop go on, and
    the status after the last child.  [composite_loop] is the common shape;
    the lemmas on it are proved once and moved to each loop by
    [*_loop_shape]. *)
Fixpoint composite_loop (guard : bool) (cont final : Status) (i : nat)
    (m_children : list NodePtr) : M Status :=
  match m_children with
  | [] => mret final
  | None :: _ => if guard then mret Invalid else undefined
  | Some node :: rest =>
      status ← deref_tick (call_child i) (Some node);
      if decide (status ≠ cont) then mret status
      else composite_loop guard cont final (S i) rest
  end.

(** ** Lemmas on the monad *)

Lemma bind_tick_returns {A : Type} (c : Call) (node : NodeTick)
    (k : Status → M A) (tree tree' : Tree) (s : Status) :
  node tree = Returns (s, tree') →
  (deref_tick c (Some node) ≫= k) tree = (c :: (k s tree').1, (k s tree').2).
Proof.
  intros Hnode. unfold mbind, M_bind, deref_tick. rewrite Hnode.
  by destruct (k s tree').
Qed.

Ltac tick_with H := rewrite (bind_tick_returns _ _ _ _ _ _ H); simpl.

(** ** The loops have the common shape *)

Ltac loop_shape :=
  let cs := fresh "cs" in let IH := fresh "IH" in
  intros i cs; revert i; induction cs as [|[node|] cs IH]; intros i tree;
  [ reflexivity
  | simpl; unfold mbind, M_bind, deref_tick;
    destruct (node tree) as [[s tree']| |]; try reflexivity;
    destruct (decide _); [reflexivity | by rewrite IH]
  | reflexivity ].

Lemma SequenceNode_loop_shape i m_children tree :
  SequenceNode_loop i m_children tree
  = composite_loop true Success Success i m_children tree.
Proof. revert i m_children tree. loop_shape. Qed.

Lemma SelectorNode_loop_shape i m_children tree :
  SelectorNode_loop i m_children tree
  = composite_loop true Failure Success i m_children tree.
Proof. revert i m_children tree. loop_shape. Qed.

Lemma RepeatWhileSuccessfulNode_loop_shape i m_children tree :
  RepeatWhileSuccessfulNode_loop i m_children tree
  = composite_loop false Success Running i m_children tree.
Proof. revert i m_children tree. loop_shape. Qed.

Lemma RepeatWhileFailureNode_loop_shape i m_children tree :
  RepeatWhileFailureNode_loop i m_children tree
  = composite_loop false Failure Running i m_children tree.
Proof. revert i m_children tree. loop_shape. Qed.

(** ** The common loop *)

(** Every child returns [cont]: all are ticked, the loop ends in [final]. *)
Lemma composite_loop_through guard cont final i children tree tree' :
  yields children tree (replicate (length children) cont) tree' →
  composite_loop guard cont final i children tree
  = (call_child <$> seq i (length children), Returns (final, tree')).
Proof.
  revert i tree. induction children as [|[node|] rest IH]; intros i tree Hy.
  - by inversion Hy.
  - inversion Hy as [|? ? ? ? tree1 ? ? Hnode Hrest]; subst. simpl.
    tick_with Hnode. rewrite decide_False by (intros Hne; by apply Hne).
    by rewrite (IH (S i) tree1 Hrest).
  - inversion Hy.
Qed.

(** The children before position [length pre] return [cont], the one there
    returns something else: the loop stops on it. *)
Lemma composite_loop_stops guard cont final i pre node post tree tree_i tree' s :
  yields pre tree (replicate (length pre) cont) tree_i →
  node tree_i = Returns (s, tree') →
  s ≠ cont →
  composite_loop guard cont final i (pre ++ Some node :: post) tree
  = (call_child <$> seq i (S (length pre)), Returns (s, tree')).
Proof.
  revert i tree. induction pre as [|[p|] pre IH]; intros i tree Hy Hnode Hs.
  - inversion Hy; subst. simpl. tick_with Hnode. by rewrite decide_True.
  - inversion Hy as [|? ? ? ? tree1 ? ? Hp Hrest]; subst.
    change (composite_loop guard cont final i
              (Some p :: (pre ++ Some node :: post)) tree = 
            (call_child <$> seq i (S (S (length pre))), Returns (s, tree'))).
    simpl. tick_with Hp. rewrite decide_False by (intros Hne; by apply Hne).
    by rewrite (IH (S i) tree1 Hrest Hnode Hs).
  - inversion Hy.
Qed.

(** The children before position [length pre] return [cont], the pointer
    there is null: a guarded loop returns [Invalid], an unguarded one
    dereferences it.  Either way the null child is not ticked. *)
Lemma composite_loop_null guard cont final i pre post tree tree_i :
  yields pre tree (replicate (length pre) cont) tree_i →
  composite_loop guard cont final i (pre ++ None :: post) tree
  = (call_child <$> seq i (length pre),
     if guard then Returns (Invalid, tree_i) else Undefined).
Proof.
  revert i tree. induction pre as [|[p|] pre IH]; intros i tree Hy.
  - inversion Hy; subst. simpl. by destruct guard.
  - inversion Hy as [|? ? ? ? tree1 ? ? Hp Hrest]; subst.
    change (composite_loop guard cont final i
              (Some p :: (pre ++ None :: post)) tree = 
            (call_child <$> seq i (S (length pre)),
             if guard then Returns (Invalid, tree_i) else Undefined)).
    simpl. tick_with Hp. rewrite decide_False by (intros Hne; by apply Hne).
    by rewrite (IH (S i) tree1 Hrest).
  - inversion Hy.
Qed.

(** A list cut at a position it has. *)
Lemma cut_at {A : Type} (l : list A) (i : nat) (x : A) :
  l !! i = Some x →
  l = take i l ++ x :: drop (S i) l ∧ length (take i l) = i.
Proof.
  intros Hi. split.
  - by rewrite take_drop_middle.
  - apply length_take_le. apply lookup_lt_Some in Hi. lia.
Qed.

(** With children, each [tick] is its loop. *)
Lemma SequenceNode_tick_loop m_children tree :
  m_children ≠ [] →
  SequenceNode_tick m_children tree
  = composite_loop true Success Success 0 m_children tree.
Proof.
  intros Hne. rewrite <- SequenceNode_loop_shape. by destruct m_children.
Qed.

Lemma SelectorNode_tick_loop m_children tree :
  m_children ≠ [] →
  SelectorNode_tick m_children tree
  = composite_loop true Failure Success 0 m_children tree.
Proof.
  intros Hne. rewrite <- SelectorNode_loop_shape. by destruct m_children.
Qed.

Lemma RepeatWhileSuccessfulNode_tick_loop m_children tree :
  m_children ≠ [] →
  RepeatWhileSuccessfulNode_tick m_children tree
  = composite_loop false Success Running 0 m_children tree.
Proof.
  intros Hne. rewrite <- RepeatWhileSuccessfulNode_loop_shape.
  by destruct m_children.
Qed.

Lemma RepeatWhileFailureNode_tick_loop m_children tree :
  m_children ≠ [] →
  RepeatWhileFailureNode_tick m_children tree
  = composite_loop false Failure Running 0 m_children tree.
Proof.
  intros Hne. rewrite <- RepeatWhileFailureNode_loop_shape.
  by destruct m_children.
Qed.

Lemma lookup_nonempty {A : Type} (l : list A) (i : nat) (x : A) :
  l !! i = Some x → l ≠ [].
Proof. by destruct l. Qed.

(** The loop of a [tick] stopped at a position given by index. *)
Lemma composite_loop_stops_at guard cont final (children : list NodePtr) i
    (child : NodeTick) s tree tree_i tree' :
  yields (take i children) tree (replicate i cont) tree_i →
  children !! i = Some (Some child) →
  child tree_i = Returns (s, tree') →
  s ≠ cont →
  composite_loop guard cont final 0 children tree
  = (call_child <$> seq 0 (S i), Returns (s, tree')).
Proof.
  intros Hy Hi Hchild Hs. destruct (cut_at (A:=NodePtr) _ _ _ Hi) as [Hcut Hlen].
  pose proof (composite_loop_stops guard cont final 0 (take i children) child
                (drop (S i) children) tree tree_i tree' s) as Hloop.
  unfold NodePtr, NodeTick in *. rewrite Hlen, <- Hcut in Hloop. by apply Hloop.
Qed.

Lemma composite_loop_null_at guard cont final (children : list NodePtr) i
    tree tree_i :
  yields (take i children) tree (replicate i cont) tree_i →
  children !! i = Some None →
  composite_loop guard cont final 0 children tree
  = (call_child <$> seq 0 i,
     if guard then Returns (Invalid, tree_i) else Undefined).
Proof.
  intros Hy Hi. destruct (cut_at (A:=NodePtr) _ _ _ Hi) as [Hcut Hlen].
  pose proof (composite_loop_null guard cont final 0 (take i children)
                (drop (S i) children) tree tree_i) as Hloop.
  unfold NodePtr, NodeTick in *. rewrite Hlen, <- Hcut in Hloop. by apply Hloop.
Qed.

(** ** Sequence *)

(** C1. A Sequence with a non-empty child list: when every child, ticked in
    order, returns Success, the tick returns Success after ticking each
    child once; and when the children before position [i] return Success
    and child [i] returns some other [s], the tick returns exactly [s], in
    the state child [i] left, having ticked children 0..i and none after. *)
Theorem SequenceNode_tick_spec (m_children : list NodePtr) (tree : Tree) :
  m_children ≠ [] →
  (∀ tree',
     yields m_children tree (replicate (length m_children) Success) tree' →
     SequenceNode_tick m_children tree
     = (call_child <$> seq 0 (length m_children), Returns (Success, tree')))
  ∧ (∀ i child s tree_i tree',
       yields (take i m_children) tree (replicate i Success) tree_i →
       m_children !! i = Some (Some child) →
       child tree_i = Returns (s, tree') →
       s ≠ Success →
       SequenceNode_tick m_children tree
       = (call_child <$> seq 0 (S i), Returns (s, tree'))).
Proof.
  intros Hne. split.
  - intros tree' Hy. rewrite SequenceNode_tick_loop by done.
    by apply composite_loop_through.
  - intros i child s tree_i tree' Hy Hi Hchild Hs.
    rewrite SequenceNode_tick_loop by done.
    by apply composite_loop_stops_at with child tree_i.
Qed.

(** ** Selector *)

(** C2, what the code does. A Selector with a non-empty child list ticks
    its children in order and returns the first outcome that is not
    Failure, with no later child ticked; when every child returns Failure
    the loop runs to its end and the tick returns Success
    (ofxBehaviourTree.cpp:89), where the comment on [struct Selector]
    (ofxBehaviourTree.h:103) and the claim say Failure. *)
Theorem SelectorNode_tick_spec (m_children : list NodePtr) (tree : Tree) :
  m_children ≠ [] →
  (∀ tree',
     yields m_children tree (replicate (length m_children) Failure) tree' →
     SelectorNode_tick m_children tree
     = (call_child <$> seq 0 (length m_children), Returns (Success, tree')))
  ∧ (∀ i child s tree_i tree',
       yields (take i m_children) tree (replicate i Failure) tree_i →
       m_children !! i = Some (Some child) →
       child tree_i = Returns (s, tree') →
       s ≠ Failure →
       SelectorNode_tick m_children tree
       = (call_child <$> seq 0 (S i), Returns (s, tree'))).
Proof.
  intros Hne. split.
  - intros tree' Hy. rewrite SelectorNode_tick_loop by done.
    by apply composite_loop_through.
  - intros i child s tree_i tree' Hy Hi Hchild Hs.
    rewrite SelectorNode_tick_loop by done.
    by apply composite_loop_stops_at with child tree_i.
Qed.

(** ** Parallel *)

(** C3, what the code does. [ParallelNode::tick] ticks no child and
    returns Invalid, whatever the children and the threshold. *)
Theorem ParallelNode_tick_stub (m_threshold : N) (m_children : list NodePtr)
    (tree : Tree) :
  ParallelNode_tick m_threshold m_children tree = ([], Returns (Invalid, tree)).
Proof. reflexivity. Qed.

(** ** Empty and null children *)

(** C7, what the code does. With no children all four composites return
    Invalid.  When the children before position [i] let the loop go on and
    the pointer at [i] is null, Sequence and Selector return Invalid
    without ticking it; the repeat-while-successful and
    repeat-while-failure loops have no such test and dereference the null
    pointer. *)
Theorem composite_tick_empty_or_null (tree : Tree) :
  (SequenceNode_tick [] tree = ([], Returns (Invalid, tree))
   ∧ SelectorNode_tick [] tree = ([], Returns (Invalid, tree))
   ∧ RepeatWhileSuccessfulNode_tick [] tree = ([], Returns (Invalid, tree))
   ∧ RepeatWhileFailureNode_tick [] tree = ([], Returns (Invalid, tree)))
  ∧ (∀ m_children i tree_i,
       m_children !! i = Some None →
       (yields (take i m_children) tree (replicate i Success) tree_i →
        SequenceNode_tick m_children tree
        = (call_child <$> seq 0 i, Returns (Invalid, tree_i)))
       ∧ (yields (take i m_children) tree (replicate i Failure) tree_i →
          SelectorNode_tick m_children tree
          = (call_child <$> seq 0 i, Returns (Invalid, tree_i)))
       ∧ (yields (take i m_children) tree (replicate i Success) tree_i →
          RepeatWhileSuccessfulNode_tick m_children tree
          = (call_child <$> seq 0 i, Undefined))
       ∧ (yields (take i m_children) tree (replicate i Failure) tree_i →
          RepeatWhileFailureNode_tick m_children tree
          = (call_child <$> seq 0 i, Undefined))).
Proof.
  split; [done|]. intros m_children i tree_i Hi.
  pose proof (lookup_nonempty _ _ _ Hi) as Hne.
  repeat split; intros Hy.
  - rewrite SequenceNode_tick_loop by done.
    by rewrite (composite_loop_null_at _ _ _ _ _ _ _ Hy Hi).
  - rewrite SelectorNode_tick_loop by done.
    by rewrite (composite_loop_null_at _ _ _ _ _ _ _ Hy Hi).
  - rewrite RepeatWhileSuccessfulNode_tick_loop by done.
    by rewrite (composite_loop_null_at _ _ _ _ _ _ _ Hy Hi).
  - rewrite RepeatWhileFailureNode_tick_loop by done.
    by rewrite (composite_loop_null_at _ _ _ _ _ _ _ Hy Hi).
Qed.

(** ** Repeat *)

Definition settled (s : Status) : Prop := s ≠ Running ∧ s ≠ Invalid.

Lemma RepeatDecoratorNode_loop_at_most (child : NodeTick) i status tree :
  ∃ k, k ≤ i ∧
    (RepeatDecoratorNode_loop i (Some child) status tree).1
    = replicate k (call_child 0).
Proof.
  revert status tree. induction i as [|i IH]; intros status tree.
  - exists 0. by split.
  - simpl. unfold mbind, M_bind, deref_tick.
    destruct (child tree) as [[s tree']| |].
    + destruct (decide _).
      * exists 1. split; [lia | done].
      * destruct (IH s tree') as (k & Hk & Hlog).
        destruct (RepeatDecoratorNode_loop i (Some child) s tree') as [log r].
        simpl in *. subst log. exists (S k). split; [lia | done].
    + exists 1. split; [lia | done].
    + exists 1. split; [lia | done].
Qed.

(** The child is ticked [length ss + 1] times in a row; all but the last
    outcome are Success or Failure; and either the count is used up or the
    last outcome is Running or Invalid. *)
Lemma RepeatDecoratorNode_loop_runs (child : NodeTick) ss :
  ∀ i status tree s tree',
  yields (replicate (S (length ss)) (Some child)) tree (ss ++ [s]) tree' →
  Forall settled ss →
  S (length ss) ≤ i →
  S (length ss) = i ∨ s = Running ∨ s = Invalid →
  RepeatDecoratorNode_loop i (Some child) status tree
  = (replicate (S (length ss)) (call_child 0), Returns (s, tree')).
Proof.
  induction ss as [|a ss IH]; intros i status tree s tree' Hy Hss Hle Hend.
  - simpl in Hy. inversion Hy as [|? ? ? ? tree1 ? ? Hchild Hrest]; subst.
    inversion Hrest; subst. destruct i as [|i]; [simpl in Hle; lia|].
    simpl. tick_with Hchild. destruct (decide _) as [|Hno]; [done|].
    destruct Hend as [Hi|Hs]; [|by destruct Hno].
    simpl in Hi. injection Hi as <-. done.
  - simpl in Hy. inversion Hy as [|? ? ? ? tree1 ? ? Hchild Hrest]; subst.
    apply Forall_cons in Hss as [[Ha1 Ha2] Hss].
    destruct i as [|i]; [simpl in Hle; lia|].
    simpl. tick_with Hchild.
    rewrite decide_False by (intros [?|?]; done).
    rewrite (IH i a tree1 s tree' Hrest Hss); [done | simpl in Hle; lia |].
    destruct Hend as [Hi|Hs]; [left; simpl in Hi; lia | by right].
Qed.

(** C9. Repeat with count [n ≥ 1] over a present child: the tick makes at
    most [n] calls, all to its child; the first outcome that is Running or
    Invalid, within the count, is returned at once; when none of the [n]
    outcomes is Running or Invalid the child is ticked exactly [n] times
    and the [n]-th outcome is returned.  In particular a child that gives
    Success, Success, Failure on its next three calls makes Repeat(3) tick
    it three times and return Failure. *)
Theorem RepeatDecoratorNode_tick_spec (child : NodeTick) :
  (∀ n tree, 1 ≤ n →
     (∃ k, k ≤ n ∧
        (RepeatDecoratorNode_tick n (Some child) tree).1
        = replicate k (call_child 0))
     ∧ (∀ ss s tree',
          length ss < n →
          yields (replicate (S (length ss)) (Some child)) tree (ss ++ [s]) tree' →
          Forall settled ss →
          s = Running ∨ s = Invalid →
          RepeatDecoratorNode_tick n (Some child) tree
          = (replicate (S (length ss)) (call_child 0), Returns (s, tree')))
     ∧ (∀ ss s tree',
          S (length ss) = n →
          yields (replicate n (Some child)) tree (ss ++ [s]) tree' →
          Forall settled (ss ++ [s]) →
          RepeatDecoratorNode_tick n (Some child) tree
          = (replicate n (call_child 0), Returns (s, tree'))))
  ∧ (∀ tree tree1 tree2 tree3,
       child tree = Returns (Success, tree1) →
       child tree1 = Returns (Success, tree2) →
       child tree2 = Returns (Failure, tree3) →
       RepeatDecoratorNode_tick 3 (Some child) tree
       = (replicate 3 (call_child 0), Returns (Failure, tree3))).
Proof.
  split.
  - intros n tree Hn. repeat split.
    + apply RepeatDecoratorNode_loop_at_most.
    + intros ss s tree' Hlt Hy Hss Hs. unfold RepeatDecoratorNode_tick.
      apply RepeatDecoratorNode_loop_runs; [done | done | lia | by right].
    + intros ss s tree' Hlen Hy Hss. unfold RepeatDecoratorNode_tick.
      apply Forall_app in Hss as [Hss _]. rewrite <- Hlen in *.
      apply RepeatDecoratorNode_loop_runs; [done | done | lia | by left].
  - intros tree tree1 tree2 tree3 H1 H2 H3.
    unfold RepeatDecoratorNode_tick. simpl.
    tick_with H1. tick_with H2. by tick_with H3.
Qed.

(** ** Decision *)

(** The strategy list of C4: a condition that fails, a condition that
    succeeds over an action, and a third strategy. *)
Definition three_strategies (condFail actA condSuccess act cond3 actB : NodeTick)
    : list (option StrategyNode) :=
  [ Some (mkStrategy (Some condFail) (Some actA));
    Some (mkStrategy (Some condSuccess) (Some act));
    Some (mkStrategy (Some cond3) (Some actB)) ].

(** C4. A Decision node as its constructor leaves it, whatever its
    strategies, has an indeterminate [m_current], and its first tick reads
    it: the tick makes no call and has no defined result, so it neither
    returns Running nor latches the second strategy.  The rest is as the
    tick is written, from a node whose [m_current] holds a pointer: with the
    null pointer, the first condition returning Failure, the second Success
    and the second action Running, the tick ticks condition 0, condition 1
    and action 1, returns Running and latches strategy 1.  With strategy 1
    latched, a tick ticks action 1 and nothing else, returns its outcome,
    and keeps the latch exactly when that outcome is Running.  The third
    strategy is arbitrary: neither its condition nor its action appears
    among the calls. *)
Theorem DecisionNode_tick_latch
    (condFail actA condSuccess act cond3 actB : NodeTick)
    (tree tree1 tree2 tree3 : Tree) :
  condFail tree = Returns (Failure, tree1) →
  condSuccess tree1 = Returns (Success, tree2) →
  act tree2 = Returns (Running, tree3) →
  let strategies :=
    three_strategies condFail actA condSuccess act cond3 actB in
  (∀ m_strategies t,
     m_current (DecisionNode_new m_strategies) = indeterminate
     ∧ DecisionNode_tick_this (DecisionNode_new m_strategies) t
       = ([], Undefined))
  ∧ DecisionNode_tick_this (DecisionNode_new strategies) tree
    ≠ ([call_condition 0; call_condition 1; call_action 1],
       Returns ((Running, mkDecisionNode strategies (holds (Some 1))), tree3))
  ∧ DecisionNode_tick_this (mkDecisionNode strategies (holds None)) tree
    = ([call_condition 0; call_condition 1; call_action 1],
       Returns ((Running, mkDecisionNode strategies (holds (Some 1))), tree3))
  ∧ (∀ t s t',
       act t = Returns (s, t') →
       DecisionNode_tick_this (mkDecisionNode strategies (holds (Some 1))) t
       = ([call_action 1],
          Returns ((s, mkDecisionNode strategies
                         (holds (if decide (s = Running) then Some 1 else None))),
                   t'))).
Proof.
  intros Hc1 Hc2 Ha strategies. split; [done|]. split; [done|]. split.
  - unfold DecisionNode_tick_this, DecisionNode_tick, strategies,
      three_strategies, DecisionNode_scan. simpl.
    unfold mbind at 1, M_bind at 1.
    tick_with Hc1. tick_with Hc2. by tick_with Ha.
  - intros t s t' Hact.
    unfold DecisionNode_tick_this, DecisionNode_tick, strategies,
      three_strategies. simpl.
    unfold mbind at 1, M_bind at 1.
    tick_with Hact. by destruct s.
Qed.

(** ** Reference resolution *)

(** C5. A token that starts with '@': the marker is stripped, the rest is
    resolved by the recursive call, and the name that gives is looked up
    once with [getFact], whose answer is the result; a miss in either step
    is a failure, and after a miss in the first no lookup is made.  In
    particular, with a top scope frame that maps x to y and a store that
    maps y to z, the token [@#x] resolves to z with the single lookup of
    y; and with no tree, no frame, or a top frame without x, it fails with
    no lookup at all. *)
Theorem getFactRef_indirect (this : B) (tree : option Tree) :
  (∀ fuel rest,
     getFactRef (S fuel) this (String "@"%char rest) tree
     = match getFactRef fuel this rest tree with
       | (log, Returns (Some name)) =>
           (log ++ [call_getFact name], Returns (getFact this name))
       | (log, Returns None) => (log, Returns None)
       | (log, Undefined) => (log, Undefined)
       | (log, OutOfFuel) => (log, OutOfFuel)
       end)
  ∧ (∀ fuel tr top below,
       3 ≤ fuel →
       tree = Some tr →
       m_scopeStack tr = top :: below →
       m_values top !! "x" = Some "y" →
       getFact this "y" = Some "z" →
       getFactRef fuel this "@#x" tree
       = ([call_getFact "y"], Returns (Some "z")))
  ∧ (∀ fuel,
       2 ≤ fuel →
       (∀ tr top, tree = Some tr → head (m_scopeStack tr) = Some top →
                  m_values top !! "x" = None) →
       getFactRef fuel this "@#x" tree = ([], Returns None)).
Proof.
  split; [|split].
  - intros fuel rest. reflexivity.
  - intros fuel tr top below Hfuel -> Hstack Hx Hy.
    destruct fuel as [|[|[|fuel]]]; [lia..|].
    simpl. unfold getScopedVar, getScopeVar. rewrite Hstack, Hx. simpl.
    by rewrite Hy.
  - intros fuel Hfuel Hmiss.
    destruct fuel as [|[|fuel]]; [lia..|].
    simpl. destruct tree as [tr|]; [|done].
    unfold getScopedVar, getScopeVar.
    destruct (m_scopeStack tr) as [|top below] eqn:Hstack; [done|].
    by rewrite (Hmiss tr top eq_refl ltac:(by rewrite Hstack)).
Qed.

(** ** Scope *)

(** The reference of a parameter resolves / fails to resolve. *)
Definition resolves (fuel : nat) (tree : Tree) (item : string * string) : Prop :=
  ∃ log temp,
    getFactRef fuel (m_blackboard tree) item.2 (Some tree)
    = (log, Returns (Some temp)).

Definition misses (fuel : nat) (tree : Tree) (item : string * string) : Prop :=
  ∃ log,
    getFactRef fuel (m_blackboard tree) item.2 (Some tree)
    = (log, Returns None).

Lemma ScopeNode_resolve_all fuel tree items params :
  Forall (resolves fuel tree) items →
  ∃ log frame,
    ScopeNode_resolve fuel (m_blackboard tree) tree items params
    = (log, Returns (Some frame)).
Proof.
  revert params. induction items as [|item rest IH]; intros params Hall.
  - by exists [], params.
  - apply Forall_cons in Hall as [(log & temp & Hitem) Hrest]. simpl.
    rewrite Hitem.
    destruct (IH (<[item.1 := temp]> params) Hrest) as (log' & frame & ->).
    by exists (log ++ log'), frame.
Qed.

Lemma ScopeNode_resolve_miss fuel tree pre item post params :
  Forall (resolves fuel tree) pre →
  misses fuel tree item →
  ∃ log,
    ScopeNode_resolve fuel (m_blackboard tree) tree (pre ++ item :: post) params
    = (log, Returns None).
Proof.
  revert params. induction pre as [|p pre IH]; intros params Hpre [log Hitem].
  - simpl. rewrite Hitem. by exists log.
  - apply Forall_cons in Hpre as [(logp & temp & Hp) Hpre]. simpl.
    rewrite Hp.
    destruct (IH (<[p.1 := temp]> params) Hpre) as (log' & ->);
      [by exists log|].
    by exists (logp ++ log').
Qed.

(** Resolution calls the fact store and nothing else. *)
Definition is_getFact (c : Call) : Prop :=
  match c with call_getFact _ => True | _ => False end.

Lemma getFactRef_calls fuel this factName tree :
  Forall is_getFact (getFactRef fuel this factName tree).1.
Proof.
  revert factName. induction fuel as [|fuel IH]; intros factName; [done|].
  simpl. destruct factName as [|c temp]; [done|].
  destruct (Ascii.eqb c "#").
  - destruct tree as [tr|]; [|done].
    destruct (getScopedVar tr temp); [apply IH | done].
  - destruct (Ascii.eqb c "@"); [|done].
    specialize (IH temp).
    destruct (getFactRef fuel this temp tree) as [log [[name|]| |]];
      simpl in *; try done.
    apply Forall_app. split; [done|]. by apply Forall_singleton.
Qed.

Lemma ScopeNode_resolve_calls fuel blackboard tree items params :
  Forall is_getFact (ScopeNode_resolve fuel blackboard tree items params).1.
Proof.
  revert params. induction items as [|item rest IH]; intros params; [done|].
  simpl. pose proof (getFactRef_calls fuel blackboard item.2 (Some tree)) as Hg.
  destruct (getFactRef fuel blackboard item.2 (Some tree))
    as [log [[temp|]| |]]; simpl in *; try done.
  specialize (IH (<[item.1 := temp]> params)).
  destruct (ScopeNode_resolve fuel blackboard tree rest _) as [log' r].
  simpl in *. by apply Forall_app.
Qed.

Definition depth (tree : Tree) : nat := length (m_scopeStack tree).

(** A node whose tick, when it returns, leaves the scope stack as deep as
    it found it. *)
Definition keeps_depth (node : NodeTick) : Prop :=
  ∀ tree s tree', node tree = Returns (s, tree') → depth tree' = depth tree.

(** The tick by the result of the resolution loop. *)
Lemma ScopeNode_tick_cases fuel m_params (child : NodeTick) tree :
  ScopeNode_tick fuel m_params (Some child) tree
  = match ScopeNode_resolve fuel (m_blackboard tree) tree m_params ∅ with
    | (log, Returns None) => (log, Returns (Invalid, tree))
    | (log, Returns (Some frame)) =>
      match child (pushScope (mkScope frame) tree) with
      | Returns (s, tree') =>
        match popScope tree' with
        | Returns tree'' => (log ++ [call_child 0], Returns (s, tree''))
        | _ => (log ++ [call_child 0], Undefined)
        end
      | Undefined => (log ++ [call_child 0], Undefined)
      | OutOfFuel => (log ++ [call_child 0], OutOfFuel)
      end
    | (log, Undefined) => (log, Undefined)
    | (log, OutOfFuel) => (log, OutOfFuel)
    end.
Proof.
  unfold ScopeNode_tick, mbind, M_bind, get_tree, const_call, update_tree,
    deref_tick.
  destruct (ScopeNode_resolve _ _ _ _ _) as [log [[frame|]| |]]; simpl;
    try done.
  - destruct (child _) as [[s tree']| |]; simpl; try done.
    unfold popScope. by destruct (m_scopeStack tree').
  - by rewrite app_nil_r.
Qed.

(** C6. A Scope node over a present child.  When a parameter, the ones
    before it having resolved, fails to resolve, the tick returns Invalid
    and leaves the tree as it was: no frame is pushed and the child is not
    ticked.  When every parameter resolves, one frame is pushed, the child
    is ticked on it once, and for a child that leaves the stack as deep as
    it found it the tick returns the child's outcome, whatever it is, after
    popping one frame.  So over a child that keeps the depth, every tick
    of the Scope node that returns, with whatever outcome, leaves the scope
    stack as deep as it found it. *)
Theorem ScopeNode_tick_depth (fuel : nat) (m_params : list (string * string))
    (child : NodeTick) (tree : Tree) :
  (∀ pre item post,
     m_params = pre ++ item :: post →
     Forall (resolves fuel tree) pre →
     misses fuel tree item →
     (ScopeNode_tick fuel m_params (Some child) tree).2
     = Returns (Invalid, tree)
     ∧ call_child 0 ∉ (ScopeNode_tick fuel m_params (Some child) tree).1)
  ∧ (Forall (resolves fuel tree) m_params →
     ∃ log frame,
       ScopeNode_resolve fuel (m_blackboard tree) tree m_params ∅
       = (log, Returns (Some frame))
       ∧ ∀ s tree',
           child (pushScope (mkScope frame) tree) = Returns (s, tree') →
           depth tree' = depth (pushScope (mkScope frame) tree) →
           ∃ tree'',
             ScopeNode_tick fuel m_params (Some child) tree
             = (log ++ [call_child 0], Returns (s, tree''))
             ∧ popScope tree' = Returns tree''
             ∧ depth tree'' = depth tree)
  ∧ (keeps_depth child →
     ∀ s tree',
       (ScopeNode_tick fuel m_params (Some child) tree).2 = Returns (s, tree') →
       depth tree' = depth tree).
Proof.
  split; [|split].
  - intros pre item post -> Hpre Hitem.
    destruct (ScopeNode_resolve_miss fuel tree pre item post ∅ Hpre Hitem)
      as [log Hres].
    pose proof (ScopeNode_resolve_calls fuel (m_blackboard tree) tree
                  (pre ++ item :: post) ∅) as Hcalls.
    rewrite ScopeNode_tick_cases, Hres. rewrite Hres in Hcalls. simpl in *.
    split; [done|]. intros Hin.
    by apply (proj1 (Forall_forall _ _) Hcalls) in Hin.
  - intros Hall.
    destruct (ScopeNode_resolve_all fuel tree m_params ∅ Hall)
      as (log & frame & Hres).
    exists log, frame. split; [done|]. intros s tree' Hchild Hdepth.
    unfold depth in Hdepth. simpl in Hdepth.
    destruct (m_scopeStack tree') as [|top below] eqn:Hstack; [done|].
    exists (mkTree (m_blackboard tree') below (m_host tree')).
    rewrite ScopeNode_tick_cases, Hres, Hchild. unfold popScope.
    rewrite Hstack. repeat split.
    unfold depth. simpl. simpl in Hdepth. lia.
  - intros Hchild s tree'. rewrite ScopeNode_tick_cases.
    destruct (ScopeNode_resolve _ _ _ _ _) as [log [[frame|]| |]]; simpl;
      try done; [|by intros [= _ <-]].
    destruct (child _) as [[s1 tree1]| |] eqn:Hc; simpl; try done.
    apply Hchild in Hc. unfold depth in *. simpl in Hc. unfold popScope.
    destruct (m_scopeStack tree1) as [|top below] eqn:Hstack; [done|].
    intros [= _ <-]. simpl. simpl in Hc. lia.
Qed.

End Engine.

(** ** The theorems at concrete trees

    The store is the default [DictBlackboard]; the host state is the number
    of leaf calls made so far, which every leaf below increments. *)

Definition CountedTree : Type := @Tree DictBlackboard nat.

Definition counted (tree : CountedTree) : CountedTree :=
  mkTree (m_blackboard tree) (m_scopeStack tree) (S (m_host tree)).

(** A leaf that returns [s]. *)
Definition leaf (s : Status) : @NodeTick DictBlackboard nat :=
  LeafNode_tick (Some (λ tree, Returns (s, counted tree))).

(** A leaf that returns [outcomes] in turn, by the number of calls so far,
    and Invalid past their end. *)
Definition leaf_in_turn (outcomes : list Status) : @NodeTick DictBlackboard nat :=
  LeafNode_tick
    (Some (λ tree,
       Returns (default Invalid (outcomes !! m_host tree), counted tree))).

Definition fresh_tree (calls : nat) : CountedTree :=
  mkTree (mkDict ∅) [] calls.

Ltac ticked := repeat (econstructor; try reflexivity).

Lemma SequenceNode_tick_witness :
  SequenceNode_tick [Some (leaf Success); Some (leaf Success)] (fresh_tree 0)
  = ([call_child 0; call_child 1], Returns (Success, fresh_tree 2))
  ∧ SequenceNode_tick
      [Some (leaf Success); Some (leaf Running); Some (leaf Success)]
      (fresh_tree 0)
    = ([call_child 0; call_child 1], Returns (Running, fresh_tree 2)).
Proof.
  split.
  - apply (proj1 (SequenceNode_tick_spec
                    [Some (leaf Success); Some (leaf Success)] (fresh_tree 0)
                    ltac:(discriminate))).
    ticked.
  - apply (proj2 (SequenceNode_tick_spec
                    [Some (leaf Success); Some (leaf Running); Some (leaf Success)]
                    (fresh_tree 0) ltac:(discriminate))
             1 (leaf Running) Running (fresh_tree 1) (fresh_tree 2)).
    + ticked.
    + reflexivity.
    + reflexivity.
    + discriminate.
Defined.

(** The failing input of C2: a Selector over one child that returns
    Failure returns Success. *)
Lemma SelectorNode_tick_witness :
  SelectorNode_tick [Some (leaf Failure)] (fresh_tree 0)
  = ([call_child 0], Returns (Success, fresh_tree 1)).
Proof.
  apply (proj1 (SelectorNode_tick_spec [Some (leaf Failure)] (fresh_tree 0)
                  ltac:(discriminate))).
  ticked.
Defined.

(** The failing input of C3: children returning Success, Success, Failure
    under threshold 2; none is ticked and the result is Invalid. *)
Lemma ParallelNode_tick_witness :
  ParallelNode_tick 2
    [Some (leaf Success); Some (leaf Success); Some (leaf Failure)]
    (fresh_tree 0)
  = ([], Returns (Invalid, fresh_tree 0)).
Proof. apply ParallelNode_tick_stub. Defined.

(** The failing input of C7: a repeat-while-successful node whose only
    child pointer is null. *)
Lemma composite_tick_empty_or_null_witness :
  RepeatWhileSuccessfulNode_tick [None] (fresh_tree 0) = ([], Undefined)
  ∧ RepeatWhileFailureNode_tick [Some (leaf Failure); None] (fresh_tree 0)
    = ([call_child 0], Undefined)
  ∧ SequenceNode_tick [Some (leaf Success); None] (fresh_tree 0)
    = ([call_child 0], Returns (Invalid, fresh_tree 1)).
Proof.
  pose proof (proj2 (composite_tick_empty_or_null (fresh_tree 0))) as Hnull.
  split; [|split].
  - apply (proj1 (proj2 (proj2 (Hnull [None] 0 (fresh_tree 0) eq_refl)))).
    ticked.
  - apply (proj2 (proj2 (proj2
             (Hnull [Some (leaf Failure); None] 1 (fresh_tree 1) eq_refl)))).
    ticked.
  - apply (proj1 (Hnull [Some (leaf Success); None] 1 (fresh_tree 1) eq_refl)).
    ticked.
Defined.

Lemma RepeatDecoratorNode_tick_witness :
  RepeatDecoratorNode_tick 3
    (Some (leaf_in_turn [Success; Success; Failure])) (fresh_tree 0)
  = ([call_child 0; call_child 0; call_child 0],
     Returns (Failure, fresh_tree 3))
  ∧ RepeatDecoratorNode_tick 3
      (Some (leaf_in_turn [Success; Running; Failure])) (fresh_tree 0)
    = ([call_child 0; call_child 0], Returns (Running, fresh_tree 2)).
Proof.
  split.
  - apply (proj2 (RepeatDecoratorNode_tick_spec
                    (leaf_in_turn [Success; Success; Failure]))
             (fresh_tree 0) (fresh_tree 1) (fresh_tree 2) (fresh_tree 3));
      reflexivity.
  - apply (proj1 (proj2 (proj1 (RepeatDecoratorNode_tick_spec
                    (leaf_in_turn [Success; Running; Failure]))
             3 (fresh_tree 0) ltac:(lia)))
             [Success] Running (fresh_tree 2)).
    + simpl. lia.
    + ticked.
    + repeat constructor; discriminate.
    + by left.
Defined.

(** An action that is still running at its first call (the third leaf call
    of the tree) and succeeds from then on. *)
Definition walk : @NodeTick DictBlackboard nat :=
  leaf_in_turn [Invalid; Invalid; Running; Success; Success].

(** The strategies of the C4 example over the counting leaves. *)
Definition strategies_walk : list (option (@StrategyNode DictBlackboard nat)) :=
  three_strategies (leaf Failure) (leaf Success) (leaf Success) walk
    (leaf Success) (leaf Failure).

Lemma DecisionNode_tick_witness :
  DecisionNode_tick_this (DecisionNode_new strategies_walk) (fresh_tree 0)
  = ([], Undefined)
  ∧ DecisionNode_tick_this (mkDecisionNode strategies_walk (holds None))
      (fresh_tree 0)
    = ([call_condition 0; call_condition 1; call_action 1],
       Returns ((Running, mkDecisionNode strategies_walk (holds (Some 1))),
                fresh_tree 3))
  ∧ DecisionNode_tick_this (mkDecisionNode strategies_walk (holds (Some 1)))
      (fresh_tree 3)
    = ([call_action 1],
       Returns ((Success, mkDecisionNode strategies_walk (holds None)),
                fresh_tree 4)).
Proof.
  pose proof (DecisionNode_tick_latch
                (leaf Failure) (leaf Success) (leaf Success) walk
                (leaf Success) (leaf Failure)
                (fresh_tree 0) (fresh_tree 1) (fresh_tree 2) (fresh_tree 3)
                eq_refl eq_refl eq_refl)
    as (Hnew & _ & Hfirst & Hlatched).
  split; [exact (proj2 (Hnew strategies_walk (fresh_tree 0)))|].
  split; [exact Hfirst|].
  exact (Hlatched (fresh_tree 3) Success (fresh_tree 4) eq_refl).
Defined.

(** The store and the tree of the C5 example. *)
Definition facts_y_z : DictBlackboard := mkDict {[ "y" := "z" ]}.
Definition tree_x_y : CountedTree :=
  mkTree facts_y_z [mkScope {[ "x" := "y" ]}] 0.
Definition tree_no_x : CountedTree :=
  mkTree facts_y_z [mkScope {[ "w" := "y" ]}] 0.

Lemma getFactRef_indirect_witness :
  getFactRef 3 facts_y_z "@#x" (Some tree_x_y)
  = ([call_getFact "y"], Returns (Some "z"))
  ∧ getFactRef 3 facts_y_z "@#x" (Some tree_no_x) = ([], Returns None).
Proof.
  split.
  - apply (proj1 (proj2 (getFactRef_indirect facts_y_z (Some tree_x_y)))
             3 tree_x_y (mkScope {[ "x" := "y" ]}) []); reflexivity.
  - apply (proj2 (proj2 (getFactRef_indirect facts_y_z (Some tree_no_x))) 3);
      [lia|].
    intros tr top [= <-] [= <-]. reflexivity.
Defined.

(** A Scope node over a Scope node over a leaf that returns Invalid,
    entered with one frame on the stack: the depth is 1 before and after.
    And a Scope node whose second parameter names a scope variable the top
    frame lacks. *)
Definition inner_scope : @NodeTick DictBlackboard nat :=
  λ tree, (ScopeNode_tick 3 [("whom", "#who")] (Some (leaf Invalid)) tree).2.

Lemma ScopeNode_tick_depth_witness :
  (∃ tree'',
     ScopeNode_tick 3 [("who", "#x")] (Some inner_scope) tree_x_y
     = ([call_child 0], Returns (Invalid, tree''))
     ∧ depth tree'' = depth tree_x_y)
  ∧ (ScopeNode_tick 3 [("who", "#x"); ("what", "#v")] (Some (leaf Invalid))
       tree_x_y).2
    = Returns (Invalid, tree_x_y)
  ∧ keeps_depth inner_scope.
Proof.
  split; [|split].
  - destruct (proj1 (proj2 (ScopeNode_tick_depth 3 [("who", "#x")] inner_scope
                              tree_x_y)))
      as (log & frame & Hres & Htick).
    { ticked. }
    injection Hres as <- <-.
    destruct (Htick Invalid
                (counted (pushScope (mkScope {[ "who" := "y" ]}) tree_x_y))
                eq_refl eq_refl)
      as (tree'' & Hrun & _ & Hdepth).
    exists tree''. split; [exact Hrun | exact Hdepth].
  - apply (proj1 (ScopeNode_tick_depth 3 [("who", "#x"); ("what", "#v")]
                    (leaf Invalid) tree_x_y)
             [("who", "#x")] ("what", "#v") []).
    + reflexivity.
    + ticked.
    + by exists [].
  - intros tree s tree'.
    apply (proj2 (proj2 (ScopeNode_tick_depth 3 [("whom", "#who")]
                           (leaf Invalid) tree))).
    by intros t s1 t1 [= _ <-].
Defined.

(** * The other nodes of ofxBehaviourTree.cpp *)

Section Nodes.
Context {B : Type} `{!Blackboard B} {Host : Type}.
Local Abbreviation Tree := (@Tree B Host).
Local Abbreviation NodeTick := (@NodeTick B Host).
Local Abbreviation NodePtr := (@NodePtr B Host).
Local Abbreviation M := (@M B Host).

Ltac ticking H := rewrite (bind_tick_returns _ _ _ _ _ _ H); simpl.

(** A [tick] as its parent sees it: the calls it makes are its own. *)
Definition as_node (tick : M Status) : NodeTick := λ tree, (tick tree).2.

(** [SimpleDecoratorNode<status>::tick], ofxBehaviourTree.cpp:140, with the
    template argument as [status]. *)
Definition SimpleDecoratorNode_tick (status : Status) (m_child : NodePtr)
    : M Status :=
  match m_child with
  | None => mret Invalid
  | Some _ =>
      childStatus ← deref_tick (call_child 0) m_child;
      if decide (childStatus = Success ∨ childStatus = Failure)
      then mret status
      else mret childStatus
  end.

(** [FalseDecoratorNode], [TrueDecoratorNode], ofxBehaviourTree.cpp:152,
    :158. *)
Definition FalseDecoratorNode_tick : NodePtr → M Status :=
  SimpleDecoratorNode_tick Failure.
Definition TrueDecoratorNode_tick : NodePtr → M Status :=
  SimpleDecoratorNode_tick Success.

(** [NegateDecoratorNode::tick], ofxBehaviourTree.cpp:169. *)
Definition NegateDecoratorNode_tick (m_child : NodePtr) : M Status :=
  match m_child with
  | None => mret Invalid
  | Some _ =>
      childStatus ← deref_tick (call_child 0) m_child;
      if decide (childStatus = Success) then mret Failure
      else if decide (childStatus = Failure) then mret Success
      else mret childStatus
  end.

(** A write to the store behind [tree->getBlackboard()]. *)
Definition update_blackboard (f : B → B) : M unit :=
  update_tree (λ tree,
    Returns (mkTree (f (m_blackboard tree)) (m_scopeStack tree) (m_host tree))).

(** [FactExistsNode::tick], ofxBehaviourTree.cpp:239: the name is handed
    to [factExists] as it is. *)
Definition FactExistsNode_tick (m_factName : string) : M Status :=
  tree ← get_tree;
  mret (if factExists (m_blackboard tree) m_factName then Success else Failure).

(** [RemoveFactNode::tick], ofxBehaviourTree.cpp:252. *)
Definition RemoveFactNode_tick (m_factName : string) : M Status :=
  _ ← update_blackboard (removeFact m_factName);
  mret Success.

(** [SetFactConstNode::tick], ofxBehaviourTree.cpp:264. *)
Definition SetFactConstNode_tick (fuel : nat) (m_factName m_factData : string)
    : M Status :=
  tree ← get_tree;
  factName ← const_call
    (getFactRef fuel (m_blackboard tree) m_factName (Some tree));
  match factName with
  | None => mret Invalid
  | Some factName =>
      factData ← const_call
        (getFactRef fuel (m_blackboard tree) m_factData (Some tree));
      match factData with
      | None => mret Invalid
      | Some factData =>
          _ ← update_blackboard (setFact factName factData);
          mret Success
      end
  end.

(** [FactEqualsConstantNode::tick], ofxBehaviourTree.cpp:284. *)
Definition FactEqualsConstantNode_tick (fuel : nat)
    (m_factName m_factData : string) : M Status :=
  tree ← get_tree;
  factName ← const_call
    (getFactRef fuel (m_blackboard tree) m_factName (Some tree));
  match factName with
  | None => mret Invalid
  | Some factName =>
      factData ← const_call
        (getFactRef fuel (m_blackboard tree) m_factData (Some tree));
      match factData with
      | None => mret Invalid
      | Some factData =>
          fact ← const_call
            ([call_getFact factName],
             Returns (getFact (m_blackboard tree) factName));
          match fact with
          | None => mret Invalid
          | Some fact =>
              mret (if decide (fact = factData) then Success else Failure)
          end
      end
  end.

(** [Tree::tick], ofxBehaviourTree.cpp:459. *)
Definition Tree_tick (m_root : NodePtr) : M Status :=
  match m_root with
  | None => mret Invalid
  | Some _ => deref_tick (call_child 0) m_root
  end.

(** ** Decorators *)

(** X1. Negate over Negate over a child is the child: the same outcome and
    the same tree for every outcome, and no result where the child gives
    none. *)
Theorem NegateDecoratorNode_twice (child : NodeTick) (tree : Tree) :
  as_node (NegateDecoratorNode_tick
             (Some (as_node (NegateDecoratorNode_tick (Some child))))) tree
  = child tree.
Proof.
  unfold as_node, NegateDecoratorNode_tick, mbind, M_bind, deref_tick. simpl.
  destruct (child tree) as [[s tree']| |]; simpl; [|done..].
  by destruct s.
Qed.

(** X2. How the three decorators compose over a present child: the outer
    of two of ReturnTrue / ReturnFalse decides, Negate under either is
    absorbed, and Negate over ReturnTrue is ReturnFalse and the reverse. *)
Theorem decorators_compose (child : NodeTick) (tree : Tree) :
  let T c := as_node (TrueDecoratorNode_tick (Some c)) in
  let F c := as_node (FalseDecoratorNode_tick (Some c)) in
  let N c := as_node (NegateDecoratorNode_tick (Some c)) in
  T (T child) tree = T child tree
  ∧ T (F child) tree = T child tree
  ∧ F (T child) tree = F child tree
  ∧ F (F child) tree = F child tree
  ∧ T (N child) tree = T child tree
  ∧ F (N child) tree = F child tree
  ∧ N (T child) tree = F child tree
  ∧ N (F child) tree = T child tree.
Proof.
  cbv zeta.
  unfold as_node, TrueDecoratorNode_tick, FalseDecoratorNode_tick,
    SimpleDecoratorNode_tick, NegateDecoratorNode_tick, mbind, M_bind,
    deref_tick.
  simpl. destruct (child tree) as [[s tree']| |]; simpl; [|done..].
  by destruct s.
Qed.

(** ** Statuses a node cannot return *)

Lemma composite_loop_not_cont guard cont final i (children : list NodePtr)
    (tree : Tree) s tree' :
  final ≠ cont →
  cont ≠ Invalid →
  (composite_loop guard cont final i children tree).2 = Returns (s, tree') →
  s ≠ cont.
Proof.
  intros Hfinal Hcont. revert i tree.
  induction children as [|[node|] rest IH]; intros i tree; simpl.
  - by intros [= <- _].
  - unfold mbind, M_bind, deref_tick.
    destruct (node tree) as [[s1 tree1]| |]; simpl; [|done..].
    destruct (decide (s1 ≠ cont)); simpl.
    + by intros [= <- _].
    + specialize (IH (S i) tree1).
      by destruct (composite_loop guard cont final (S i) rest tree1).
  - destruct guard; simpl; [|done]. by intros [= <- _].
Qed.

(** X3. Whatever its children do, a Selector never returns Failure, a
    repeat-while-successful node never returns Success and a
    repeat-while-failure node never returns Failure; ReturnTrue never
    returns Failure and ReturnFalse never returns Success, with a null
    child too. *)
Theorem statuses_never_returned (m_children : list NodePtr) (m_child : NodePtr)
    (tree tree' : Tree) (s : Status) :
  (as_node (SelectorNode_tick m_children) tree = Returns (s, tree') →
   s ≠ Failure)
  ∧ (as_node (RepeatWhileSuccessfulNode_tick m_children) tree
     = Returns (s, tree') → s ≠ Success)
  ∧ (as_node (RepeatWhileFailureNode_tick m_children) tree
     = Returns (s, tree') → s ≠ Failure)
  ∧ (as_node (TrueDecoratorNode_tick m_child) tree = Returns (s, tree') →
     s ≠ Failure)
  ∧ (as_node (FalseDecoratorNode_tick m_child) tree = Returns (s, tree') →
     s ≠ Success).
Proof.
  unfold as_node. repeat split.
  - destruct m_children as [|c cs]; [by intros [= <- _]|].
    rewrite SelectorNode_tick_loop by done.
    by apply composite_loop_not_cont.
  - destruct m_children as [|c cs]; [by intros [= <- _]|].
    rewrite RepeatWhileSuccessfulNode_tick_loop by done.
    by apply composite_loop_not_cont.
  - destruct m_children as [|c cs]; [by intros [= <- _]|].
    rewrite RepeatWhileFailureNode_tick_loop by done.
    by apply composite_loop_not_cont.
  - unfold TrueDecoratorNode_tick, SimpleDecoratorNode_tick, mbind, M_bind,
      deref_tick.
    destruct m_child as [child|]; simpl; [|by intros [= <- _]].
    destruct (child tree) as [[s1 tree1]| |]; simpl; [|done..].
    destruct s1; simpl; by intros [= <- _].
  - unfold FalseDecoratorNode_tick, SimpleDecoratorNode_tick, mbind, M_bind,
      deref_tick.
    destruct m_child as [child|]; simpl; [|by intros [= <- _]].
    destruct (child tree) as [[s1 tree1]| |]; simpl; [|done..].
    destruct s1; simpl; by intros [= <- _].
Qed.

(** ** Sequence, the other way round *)

Lemma composite_loop_returned_cont guard cont i (children : list NodePtr)
    (tree : Tree) log tree' :
  cont ≠ Invalid →
  composite_loop guard cont cont i children tree = (log, Returns (cont, tree')) →
  yields children tree (replicate (length children) cont) tree'
  ∧ log = call_child <$> seq i (length children).
Proof.
  intros Hcont. revert i tree log.
  induction children as [|[node|] rest IH]; intros i tree log; simpl.
  - intros [= <- <-]. split; [constructor | done].
  - unfold mbind, M_bind, deref_tick.
    destruct (node tree) as [[s1 tree1]| |] eqn:Hnode; simpl; [|done..].
    destruct (decide (s1 ≠ cont)) as [Hs1|Hs1]; simpl.
    + intros [= _ Hs _]. by destruct Hs1.
    + apply dec_stable in Hs1 as ->.
      destruct (composite_loop guard cont cont (S i) rest tree1)
        as [log1 r1] eqn:Hrest.
      intros [= <- ->]. destruct (IH _ _ _ Hrest) as [Hy ->].
      split; [by econstructor | done].
  - destruct guard; simpl; [|done]. intros [= _ Hs _]. by destruct Hcont.
Qed.

(** X4. A Sequence returns Success exactly when its child list is not
    empty, holds no null pointer, and every child, ticked once and in
    order, returned Success. *)
Theorem SequenceNode_tick_Success_iff (m_children : list NodePtr)
    (tree tree' : Tree) (log : list Call) :
  SequenceNode_tick m_children tree = (log, Returns (Success, tree'))
  ↔ m_children ≠ []
    ∧ yields m_children tree (replicate (length m_children) Success) tree'
    ∧ log = call_child <$> seq 0 (length m_children).
Proof.
  split.
  - destruct m_children as [|c cs]; [done|].
    rewrite SequenceNode_tick_loop by done. intros Hloop.
    split; [done|]. by apply composite_loop_returned_cont with true.
  - intros (Hne & Hy & ->). rewrite SequenceNode_tick_loop by done.
    by apply composite_loop_through.
Qed.

(** ** What the composites leave alone *)

(** [node] changes the tree only along [R]. *)
Definition respects (R : Tree → Tree → Prop) (node : NodeTick) : Prop :=
  ∀ tree s tree', node tree = Returns (s, tree') → R tree tree'.

Definition all_respect (R : Tree → Tree → Prop) (children : list NodePtr)
    : Prop :=
  Forall (λ child, ∀ node, child = Some node → respects R node) children.

Lemma composite_loop_respects (R : Tree → Tree → Prop) guard cont final
    (children : list NodePtr) :
  Reflexive R → Transitive R →
  all_respect R children →
  ∀ i, respects R (λ tree, (composite_loop guard cont final i children tree).2).
Proof.
  intros Hrefl Htrans. induction children as [|[node|] rest IH];
    intros Hall i tree s tree'; simpl.
  - by intros [= _ <-].
  - apply Forall_cons in Hall as [Hnode Hrest].
    unfold mbind, M_bind, deref_tick.
    destruct (node tree) as [[s1 tree1]| |] eqn:Hn; simpl; [|done..].
    pose proof (Hnode node eq_refl _ _ _ Hn) as Hstep.
    destruct (decide (s1 ≠ cont)); simpl.
    + by intros [= _ <-].
    + destruct (composite_loop guard cont final (S i) rest tree1) as [l r]
        eqn:Hloop.
      simpl. intros Hr. apply (Htrans _ tree1); [exact Hstep|].
      apply (IH Hrest (S i) tree1 s tree'). rewrite <- Hr.
      exact (f_equal snd Hloop).
  - destruct guard; simpl; [|done]. by intros [= _ <-].
Qed.

Lemma RepeatDecoratorNode_loop_respects (R : Tree → Tree → Prop)
    (child : NodeTick) :
  Reflexive R → Transitive R →
  respects R child →
  ∀ i status,
    respects R (λ tree, (RepeatDecoratorNode_loop i (Some child) status tree).2).
Proof.
  intros Hrefl Htrans Hchild. induction i as [|i IH];
    intros status tree s tree'; simpl.
  - by intros [= _ <-].
  - unfold mbind, M_bind, deref_tick.
    destruct (child tree) as [[s1 tree1]| |] eqn:Hc; simpl; [|done..].
    pose proof (Hchild _ _ _ Hc) as Hstep.
    destruct (decide _); simpl.
    + by intros [= _ <-].
    + destruct (RepeatDecoratorNode_loop i (Some child) s1 tree1) as [l r]
        eqn:Hloop.
      simpl. intros Hr. apply (Htrans _ tree1); [exact Hstep|].
      apply (IH s1 tree1 s tree'). rewrite <- Hr.
      exact (f_equal snd Hloop).
Qed.

(** X5. A Sequence, Selector, repeat-while or Repeat node changes the
    tree only through its children: a reflexive and transitive relation
    between the tree before and after that every child's tick keeps is
    kept by the node's tick. *)
Theorem composites_respect (R : Tree → Tree → Prop)
    (m_children : list NodePtr) (child : NodeTick) (m_loopCount : nat) :
  Reflexive R → Transitive R →
  all_respect R m_children →
  respects R child →
  respects R (as_node (SequenceNode_tick m_children))
  ∧ respects R (as_node (SelectorNode_tick m_children))
  ∧ respects R (as_node (RepeatWhileSuccessfulNode_tick m_children))
  ∧ respects R (as_node (RepeatWhileFailureNode_tick m_children))
  ∧ respects R (as_node (RepeatDecoratorNode_tick m_loopCount (Some child))).
Proof.
  intros Hrefl Htrans Hall Hchild. unfold as_node. repeat split.
  - intros tree s tree'. destruct m_children as [|c cs]; [by intros [= _ <-]|].
    rewrite SequenceNode_tick_loop by done.
    by apply (composite_loop_respects R).
  - intros tree s tree'. destruct m_children as [|c cs]; [by intros [= _ <-]|].
    rewrite SelectorNode_tick_loop by done.
    by apply (composite_loop_respects R).
  - intros tree s tree'. destruct m_children as [|c cs]; [by intros [= _ <-]|].
    rewrite RepeatWhileSuccessfulNode_tick_loop by done.
    by apply (composite_loop_respects R).
  - intros tree s tree'. destruct m_children as [|c cs]; [by intros [= _ <-]|].
    rewrite RepeatWhileFailureNode_tick_loop by done.
    by apply (composite_loop_respects R).
  - by apply RepeatDecoratorNode_loop_respects.
Qed.

(** ** Decision *)

Lemma DecisionNode_scan_no_match (sts : list StrategyNode) :
  ∀ i (tree tree' : Tree),
  yields (m_condition <$> sts) tree (replicate (length sts) Failure) tree' →
  DecisionNode_scan i (Some <$> sts) tree
  = (call_condition <$> seq i (length sts), Returns ((Invalid, None), tree')).
Proof.
  induction sts as [|st rest IH]; intros i tree tree' Hy.
  - by inversion Hy.
  - simpl in Hy.
    inversion Hy as [|cond ? ? ? tree1 ? ? Hcond Hrest Hst]; subst. simpl.
    rewrite <- Hst. ticking Hcond.
    pose proof (IH (S i) tree1 tree' Hrest) as Hrec. unfold fmap in Hrec.
    by rewrite Hrec.
Qed.

(** X6. A Decision node with no strategy latched, whose conditions all
    return Failure: every condition is ticked once, in order, no action is
    ticked, the tick returns Invalid and nothing is latched.  With no
    strategies at all this is an immediate Invalid. *)
Theorem DecisionNode_tick_no_match (sts : list StrategyNode)
    (tree tree' : Tree) :
  yields (m_condition <$> sts) tree (replicate (length sts) Failure) tree' →
  DecisionNode_tick (Some <$> sts) None tree
  = (call_condition <$> seq 0 (length sts), Returns ((Invalid, None), tree')).
Proof. intros Hy. unfold DecisionNode_tick. by apply DecisionNode_scan_no_match. Qed.

Lemma last_cons_some {A : Type} (x y : A) (l : list A) :
  last l = Some y → last (x :: l) = Some y.
Proof. destruct l; [done|]. by intros. Qed.

Lemma DecisionNode_scan_latch (strategies : list (option StrategyNode)) :
  ∀ i (tree tree' : Tree) log s m k,
  DecisionNode_scan i strategies tree = (log, Returns ((s, m), tree')) →
  m = Some k →
  s = Running
  ∧ i ≤ k
  ∧ (∃ st, strategies !! (k - i) = Some (Some st))
  ∧ last log = Some (call_action k).
Proof.
  induction strategies as [|[st|] rest IH]; intros i tree tree' log s m k;
    simpl; [by intros [= _ _ <- _] | | done].
  unfold mbind, M_bind, deref_tick.
  destruct (m_condition st) as [cond|]; [|done].
  destruct (cond tree) as [[c tree1]| |]; simpl; [|done..].
  destruct (decide (c = Success)) as [->|Hc]; simpl.
  - destruct (m_action st) as [act|]; [|done].
    destruct (act tree1) as [[r tree2]| |]; simpl; [|done..].
    intros [= <- <- <- _]. destruct (decide (r = Running)) as [->|]; [|done].
    intros [= <-]. rewrite Nat.sub_diag. by eauto 6.
  - destruct (decide (c ≠ Failure)); simpl; [by intros [= _ _ <- _]|].
    destruct (DecisionNode_scan (S i) rest tree1) as [log1 r1] eqn:Hscan.
    intros [= <- ->] Hm.
    destruct (IH _ _ _ _ _ _ _ Hscan Hm) as (Hs & Hle & [st' Hst] & Hlast).
    split; [done|]. split; [lia|]. split.
    + exists st'. by replace (k - i) with (S (k - S i)) by lia.
    + by apply last_cons_some.
Qed.

(** X7. The latch of a Decision node.  From any state, when a tick
    returns with a strategy latched, the status it returns is Running, the
    latch points at a strategy of the list, and the last call of the tick
    was to that strategy's action.  So a latch that is once unset or valid
    never dangles. *)
Theorem DecisionNode_tick_latch_valid
    (m_strategies : list (option StrategyNode)) (m_current : option nat)
    (tree tree' : Tree) (log : list Call) (s : Status) (k : nat) :
  DecisionNode_tick m_strategies m_current tree
  = (log, Returns ((s, Some k), tree')) →
  s = Running
  ∧ (∃ st, m_strategies !! k = Some (Some st))
  ∧ last log = Some (call_action k).
Proof.
  unfold DecisionNode_tick. destruct m_current as [j|].
  - destruct (m_strategies !! j) as [[st|]|] eqn:Hj; [|done..].
    unfold mbind, M_bind, deref_tick.
    destruct (m_action st) as [act|]; [|done].
    destruct (act tree) as [[r tree1]| |]; simpl; [|done..].
    destruct (decide (r ≠ Running)) as [|Hr]; [done|].
    apply dec_stable in Hr as ->. intros [= <- <- <- _]. by eauto.
  - intros Hscan.
    destruct (DecisionNode_scan_latch _ _ _ _ _ _ _ _ Hscan eq_refl)
      as (Hs & _ & Hst & Hlast).
    by rewrite Nat.sub_0_r in Hst.
Qed.

(** ** Reference resolution *)

Lemma getFactRef_same_vars (fuel : nat) (this : B) (tr tr' : Tree) :
  (∀ v, getScopedVar tr v = getScopedVar tr' v) →
  ∀ token,
    getFactRef fuel this token (Some tr) = getFactRef fuel this token (Some tr').
Proof.
  intros Hvars. induction fuel as [|fuel IH]; intros token; [done|].
  simpl. destruct token as [|c temp]; [done|].
  destruct (Ascii.eqb c "#").
  - rewrite Hvars. by destruct (getScopedVar tr' temp).
  - destruct (Ascii.eqb c "@"); [|done]. by rewrite IH.
Qed.

(** X8. Resolution reads the tree through the top scope frame only: two
    trees whose stacks have the same top frame (or are both empty) resolve
    every token alike, whatever lies below the top and whatever else the
    trees hold. *)
Theorem getFactRef_top_frame_only (fuel : nat) (this : B) (token : string)
    (tr tr' : Tree) :
  head (m_scopeStack tr) = head (m_scopeStack tr') →
  getFactRef fuel this token (Some tr) = getFactRef fuel this token (Some tr').
Proof.
  intros Htop. apply getFactRef_same_vars. intros v. unfold getScopedVar.
  destruct (m_scopeStack tr) as [|top below],
           (m_scopeStack tr') as [|top' below']; simpl in Htop; try done.
  by injection Htop as ->.
Qed.

(** X9. A scope variable whose value is the reference to itself: the
    resolution of that reference never returns, whatever the depth
    allowed, and neither does an indirection through it. *)
Theorem getFactRef_self_reference (fuel : nat) (this : B) (tr : Tree)
    (top : NodeScope) (v : string) :
  head (m_scopeStack tr) = Some top →
  m_values top !! v = Some (String "#"%char v) →
  getFactRef fuel this (String "#"%char v) (Some tr) = ([], OutOfFuel)
  ∧ getFactRef fuel this (String "@"%char (String "#"%char v)) (Some tr)
    = ([], OutOfFuel).
Proof.
  intros Htop Hv.
  assert (Hvar : getScopedVar tr v = Some (String "#"%char v)).
  { unfold getScopedVar, getScopeVar.
    destruct (m_scopeStack tr); simpl in Htop; [done|]. by injection Htop as ->. }
  assert (Hloop : ∀ fuel',
    getFactRef fuel' this (String "#"%char v) (Some tr) = ([], OutOfFuel)).
  { induction fuel' as [|fuel' IH]; [done|]. simpl. by rewrite Hvar. }
  split; [apply Hloop|].
  destruct fuel as [|fuel]; [done|]. simpl. by rewrite Hloop.
Qed.

(** [n] indirection markers in front of [name]. *)
Fixpoint indirect (n : nat) (name : string) : string :=
  match n with
  | O => name
  | S n => String "@"%char (indirect n name)
  end.

(** [n] lookups in a row, each of the name the one before gave. *)
Fixpoint chase (n : nat) (this : B) (name : string) : option string :=
  match n with
  | O => Some name
  | S n => chase n this name ≫= getFact this
  end.

(** A non-empty token that starts with neither marker. *)
Definition plain (name : string) : Prop :=
  match name with
  | EmptyString => False
  | String c _ => Ascii.eqb c "#" = false ∧ Ascii.eqb c "@" = false
  end.

(** X10. Multiple indirection: [n] markers '@' in front of a plain name
    resolve, within depth [n + 1] and with or without a tree, to what [n]
    successive fact lookups starting from the name give, and fail when one
    of them misses; no more than [n] lookups are made. *)
Theorem getFactRef_chain (this : B) (tree : option Tree) (name : string)
    (n fuel : nat) :
  plain name →
  n < fuel →
  ∃ log,
    getFactRef fuel this (indirect n name) tree
    = (log, Returns (chase n this name))
    ∧ length log ≤ n.
Proof.
  intros Hplain. revert fuel. induction n as [|n IH]; intros fuel Hfuel.
  - destruct fuel as [|fuel]; [lia|]. exists []. split; [|done]. simpl.
    destruct name as [|c rest]; [done|]. destruct Hplain as [-> ->]. done.
  - destruct fuel as [|fuel]; [lia|].
    destruct (IH fuel ltac:(lia)) as (log & Hrec & Hlen). simpl.
    rewrite Hrec. destruct (chase n this name) as [x|]; simpl.
    + exists (log ++ [call_getFact x]). split; [done|].
      rewrite length_app. simpl. lia.
    + exists log. split; [done | lia].
Qed.

(** X11. Without a tree the resolution of any token returns, within a
    depth of the token's length plus one. *)
Theorem getFactRef_no_tree_returns (this : B) (token : string) (fuel : nat) :
  String.length token < fuel →
  ∃ r, (getFactRef fuel this token (@None Tree)).2 = Returns r.
Proof.
  revert fuel. induction token as [|c temp IH]; intros fuel Hfuel;
    (destruct fuel as [|fuel]; [simpl in Hfuel; lia|]); simpl.
  - by eexists.
  - destruct (Ascii.eqb c "#"); [by eexists|].
    destruct (Ascii.eqb c "@"); [|by eexists].
    destruct (IH fuel ltac:(simpl in Hfuel; lia)) as [r Hr].
    destruct (getFactRef fuel this temp None) as [log o]. simpl in Hr. subst o.
    destruct r; by eexists.
Qed.

(** ** The fact nodes and the tree *)

(** X12. FactExists and FactEqualsConstant only read: when their tick
    returns, with whatever status, the tree is the one it was handed.
    RemoveFact and SetFactConstant write the store and nothing else: the
    scope stack and the host state are as before. *)
Theorem fact_nodes_frame (fuel : nat) (m_factName m_factData : string)
    (tree tree' : Tree) (s : Status) :
  (as_node (FactExistsNode_tick m_factName) tree = Returns (s, tree') →
   tree' = tree)
  ∧ (as_node (FactEqualsConstantNode_tick fuel m_factName m_factData) tree
     = Returns (s, tree') → tree' = tree)
  ∧ (as_node (RemoveFactNode_tick m_factName) tree = Returns (s, tree') →
     m_scopeStack tree' = m_scopeStack tree ∧ m_host tree' = m_host tree)
  ∧ (as_node (SetFactConstNode_tick fuel m_factName m_factData) tree
     = Returns (s, tree') →
     m_scopeStack tree' = m_scopeStack tree ∧ m_host tree' = m_host tree).
Proof.
  unfold as_node. split; [|split; [|split]].
  - unfold FactExistsNode_tick. simpl. by intros [= _ <-].
  - unfold FactEqualsConstantNode_tick, mbind, M_bind, get_tree, const_call.
    simpl.
    destruct (getFactRef fuel (m_blackboard tree) m_factName (Some tree))
      as [log1 [[factName|]| |]]; simpl; try done; [|by intros [= _ <-]].
    destruct (getFactRef fuel (m_blackboard tree) m_factData (Some tree))
      as [log2 [[factData|]| |]]; simpl; try done; [|by intros [= _ <-]].
    destruct (getFact (m_blackboard tree) factName); simpl;
      by intros [= _ <-].
  - unfold RemoveFactNode_tick. simpl. by intros [= _ <-].
  - unfold SetFactConstNode_tick, mbind, M_bind, get_tree, const_call. simpl.
    destruct (getFactRef fuel (m_blackboard tree) m_factName (Some tree))
      as [log1 [[factName|]| |]]; simpl; try done; [|by intros [= _ <-]].
    destruct (getFactRef fuel (m_blackboard tree) m_factData (Some tree))
      as [log2 [[factData|]| |]]; simpl; try done; by intros [= _ <-].
Qed.

(** ** The frame a Scope node builds *)

Lemma ScopeNode_resolve_frame_from (fuel : nat) (blackboard : B) (tree : Tree)
    (items : list (string * string)) :
  ∀ params log frame,
  ScopeNode_resolve fuel blackboard tree items params
  = (log, Returns (Some frame)) →
  (∀ name, name ∉ items.*1 → frame !! name = params !! name)
  ∧ (NoDup items.*1 →
     ∀ name ref, (name, ref) ∈ items →
       ∃ l v, getFactRef fuel blackboard ref (Some tree) = (l, Returns (Some v))
              ∧ frame !! name = Some v).
Proof.
  induction items as [|[name0 ref0] rest IH]; intros params log frame; simpl.
  - intros [= _ <-]. split; [done|]. intros _ name ref Hin.
    by apply elem_of_nil in Hin.
  - destruct (getFactRef fuel blackboard ref0 (Some tree))
      as [l0 [[temp|]| |]] eqn:Href; try done.
    destruct (ScopeNode_resolve fuel blackboard tree rest
                (<[name0 := temp]> params)) as [log' r] eqn:Hrest.
    intros [= _ ->]. destruct (IH _ _ _ Hrest) as [Hout Hin]. split.
    + intros name Hname. apply not_elem_of_cons in Hname as [Hne Hname].
      rewrite (Hout name Hname). by rewrite lookup_insert_ne.
    + intros Hnodup name ref Hmem. apply NoDup_cons in Hnodup as [Hfresh Hnodup].
      apply elem_of_cons in Hmem as [[= -> ->]|Hmem].
      * exists l0, temp. split; [done|].
        rewrite (Hout name0 Hfresh). by rewrite lookup_insert_eq.
      * by apply Hin.
Qed.

(** X13. The frame a Scope node pushes, its parameter names being
    distinct as the keys of a map are: the child reads under each
    parameter name the value its reference resolved to, and under any
    other name nothing, whatever the frame below holds. *)
Theorem ScopeNode_frame (fuel : nat) (tree : Tree)
    (m_params : list (string * string)) (log : list Call)
    (frame : gmap string string) :
  NoDup m_params.*1 →
  ScopeNode_resolve fuel (m_blackboard tree) tree m_params ∅
  = (log, Returns (Some frame)) →
  (∀ name ref, (name, ref) ∈ m_params →
     ∃ l v,
       getFactRef fuel (m_blackboard tree) ref (Some tree)
       = (l, Returns (Some v))
       ∧ getScopedVar (pushScope (mkScope frame) tree) name = Some v)
  ∧ (∀ name, name ∉ m_params.*1 →
       getScopedVar (pushScope (mkScope frame) tree) name = None).
Proof.
  intros Hnodup Hres.
  destruct (ScopeNode_resolve_frame_from _ _ _ _ _ _ _ Hres) as [Hout Hin].
  split.
  - intros name ref Hmem. destruct (Hin Hnodup name ref Hmem) as (l & v & ? & ?).
    by exists l, v.
  - intros name Hname. unfold getScopedVar, getScopeVar. simpl.
    by rewrite (Hout name Hname).
Qed.

(** A resolution that made no lookup did not read the store. *)
Lemma getFactRef_no_lookup (fuel : nat) (this this' : B) (tree : option Tree) :
  ∀ token r,
  getFactRef fuel this token tree = ([], r) →
  getFactRef fuel this' token tree = ([], r).
Proof.
  induction fuel as [|fuel IH]; intros token r; [done|]. simpl.
  destruct token as [|c temp]; [done|].
  destruct (Ascii.eqb c "#").
  - destruct tree as [tr|]; [|done].
    destruct (getScopedVar tr temp); [apply IH | done].
  - destruct (Ascii.eqb c "@"); [|done].
    destruct (getFactRef fuel this temp tree) as [log o] eqn:Hrec.
    destruct o as [[x|]| |].
    + intros [= Hlog _]. by destruct log.
    + intros [= -> <-]. by rewrite (IH _ _ Hrec).
    + intros [= -> <-]. by rewrite (IH _ _ Hrec).
    + intros [= -> <-]. by rewrite (IH _ _ Hrec).
Qed.

End Nodes.

(** ** The default store *)

(** X14. [DictBlackboard]: a fact set is the fact read back and exists; a
    fact removed is missing and does not exist; neither touches another
    name; and a fact exists exactly when reading it succeeds. *)
Theorem DictBlackboard_set_get_remove (this : DictBlackboard)
    (factName data : string) :
  getFact (setFact factName data this) factName = Some data
  ∧ factExists (setFact factName data this) factName = true
  ∧ getFact (removeFact factName this) factName = None
  ∧ factExists (removeFact factName this) factName = false
  ∧ (∀ other, other ≠ factName →
       getFact (setFact factName data this) other = getFact this other
       ∧ getFact (removeFact factName this) other = getFact this other)
  ∧ (∀ name, factExists this name = true ↔ is_Some (getFact this name)).
Proof.
  simpl. repeat split.
  - apply lookup_insert_eq.
  - apply bool_decide_eq_true. rewrite lookup_insert_eq. by eexists.
  - apply lookup_delete_eq.
  - apply bool_decide_eq_false. rewrite lookup_delete_eq. by intros [? ?].
  - by apply lookup_insert_ne.
  - by apply lookup_delete_ne.
  - by intros ?%bool_decide_eq_true.
  - intros ?. by apply bool_decide_eq_true.
Qed.

Section DictNodes.
Context {Host : Type}.
Local Abbreviation DictTree := (@Tree DictBlackboard Host).

(** X15. SetFactConstant, then the nodes that read.  When the two
    references resolve without reading the store, to [name] and [data],
    the tick returns Success and stores [data] under [name]; on the tree
    it leaves, FactEqualsConstant with the same two references returns
    Success after the one lookup of [name], and FactExists of [name]
    returns Success. *)
Theorem SetFactConst_then_read (fuel : nat) (m_factName m_factData : string)
    (tree : DictTree) (name data : string) :
  getFactRef fuel (m_blackboard tree) m_factName (Some tree)
  = ([], Returns (Some name)) →
  getFactRef fuel (m_blackboard tree) m_factData (Some tree)
  = ([], Returns (Some data)) →
  ∃ tree',
    SetFactConstNode_tick fuel m_factName m_factData tree
    = ([], Returns (Success, tree'))
    ∧ getFact (m_blackboard tree') name = Some data
    ∧ FactEqualsConstantNode_tick fuel m_factName m_factData tree'
      = ([call_getFact name], Returns (Success, tree'))
    ∧ FactExistsNode_tick name tree' = ([], Returns (Success, tree')).
Proof.
  intros Hname Hdata.
  set (tree' := mkTree (setFact name data (m_blackboard tree))
                  (m_scopeStack tree) (m_host tree)).
  exists tree'.
  assert (Hname' : ∀ t : DictTree,
            m_scopeStack t = m_scopeStack tree → ∀ this,
            getFactRef fuel this m_factName (Some t) = ([], Returns (Some name))).
  { intros t Ht this.
    rewrite (getFactRef_same_vars fuel this t tree)
      by (intros v; unfold getScopedVar; by rewrite Ht).
    by apply (getFactRef_no_lookup fuel (m_blackboard tree)). }
  assert (Hdata' : ∀ t : DictTree,
            m_scopeStack t = m_scopeStack tree → ∀ this,
            getFactRef fuel this m_factData (Some t) = ([], Returns (Some data))).
  { intros t Ht this.
    rewrite (getFactRef_same_vars fuel this t tree)
      by (intros v; unfold getScopedVar; by rewrite Ht).
    by apply (getFactRef_no_lookup fuel (m_blackboard tree)). }
  repeat split.
  - unfold SetFactConstNode_tick, mbind, M_bind, get_tree, const_call. simpl.
    rewrite Hname. simpl. by rewrite Hdata.
  - simpl. apply lookup_insert_eq.
  - unfold FactEqualsConstantNode_tick, mbind, M_bind, get_tree, const_call.
    cbn [fst snd]. rewrite (Hname' tree' eq_refl). cbn -[getFactRef].
    rewrite (Hdata' tree' eq_refl). cbn. rewrite lookup_insert_eq.
    by rewrite decide_True.
  - unfold FactExistsNode_tick, mbind, M_bind, get_tree. simpl.
    rewrite bool_decide_eq_true_2; [done|]. rewrite lookup_insert_eq. by eexists.
Qed.

(** X16. RemoveFact, then the nodes that read.  The tick returns Success;
    on the tree it leaves, FactExists of the same name returns Failure,
    and FactEqualsConstant on that name, given as a plain token, returns
    Invalid, not Failure, whatever it is compared with. *)
Theorem RemoveFact_then_read (m_factName : string) (tree : DictTree) :
  ∃ tree',
    RemoveFactNode_tick m_factName tree = ([], Returns (Success, tree'))
    ∧ FactExistsNode_tick m_factName tree' = ([], Returns (Failure, tree'))
    ∧ (∀ fuel m_factData data log,
         plain m_factName →
         1 ≤ fuel →
         getFactRef fuel (m_blackboard tree') m_factData (Some tree')
         = (log, Returns (Some data)) →
         FactEqualsConstantNode_tick fuel m_factName m_factData tree'
         = (log ++ [call_getFact m_factName], Returns (Invalid, tree'))).
Proof.
  remember (mkTree (removeFact m_factName (m_blackboard tree))
              (m_scopeStack tree) (m_host tree)) as tree' eqn:Htree'.
  assert (Hgone : getFact (m_blackboard tree') m_factName = None).
  { subst tree'. simpl. apply lookup_delete_eq. }
  exists tree'. repeat split.
  - by subst tree'.
  - unfold FactExistsNode_tick, mbind, M_bind, get_tree. simpl.
    rewrite bool_decide_eq_false_2; [done|]. simpl in Hgone. rewrite Hgone.
    by intros [? ?].
  - intros fuel m_factData data log Hplain Hfuel Hdata.
    unfold FactEqualsConstantNode_tick, mbind, M_bind, get_tree, const_call.
    cbn [fst snd].
    assert (Hname : getFactRef fuel (m_blackboard tree') m_factName (Some tree')
                    = ([], Returns (Some m_factName))).
    { destruct fuel as [|fuel]; [lia|].
      destruct m_factName as [|c rest]; [done|]. destruct Hplain as [Hc1 Hc2].
      simpl. by rewrite Hc1, Hc2. }
    rewrite Hname. cbn -[getFactRef]. rewrite Hdata. cbn -[getFactRef].
    simpl in Hgone. by rewrite Hgone.
Qed.

End DictNodes.

(** ** The theorems above at concrete trees *)

Definition same_depth (tree tree' : CountedTree) : Prop :=
  depth tree' = depth tree.

Lemma leaf_same_depth (s : Status) : respects same_depth (leaf s).
Proof. by intros tree s' tree' [= _ <-]. Qed.

Lemma composites_respect_witness :
  respects same_depth
    (as_node (SequenceNode_tick [Some (leaf Success); Some (leaf Failure)]))
  ∧ respects same_depth
      (as_node (SelectorNode_tick [Some (leaf Success); Some (leaf Failure)]))
  ∧ respects same_depth
      (as_node (RepeatWhileSuccessfulNode_tick
                  [Some (leaf Success); Some (leaf Failure)]))
  ∧ respects same_depth
      (as_node (RepeatWhileFailureNode_tick
                  [Some (leaf Success); Some (leaf Failure)]))
  ∧ respects same_depth
      (as_node (RepeatDecoratorNode_tick 2 (Some (leaf Running)))).
Proof.
  apply (composites_respect same_depth
           [Some (leaf Success); Some (leaf Failure)] (leaf Running) 2).
  - by intros tree.
  - intros t1 t2 t3 H12 H23. unfold same_depth in *. congruence.
  - repeat constructor; intros node [= <-]; apply leaf_same_depth.
  - apply leaf_same_depth.
Defined.

Definition two_failing : list (@StrategyNode DictBlackboard nat) :=
  [ mkStrategy (Some (leaf Failure)) (Some (leaf Success));
    mkStrategy (Some (leaf Failure)) None ].

Lemma DecisionNode_tick_no_match_witness :
  DecisionNode_tick (Some <$> two_failing) None (fresh_tree 0)
  = ([call_condition 0; call_condition 1],
     Returns ((Invalid, None), fresh_tree 2)).
Proof.
  apply (DecisionNode_tick_no_match two_failing (fresh_tree 0) (fresh_tree 2)).
  ticked.
Defined.

Lemma DecisionNode_tick_latch_valid_witness :
  Running = Running
  ∧ (∃ st,
       three_strategies (leaf Failure) (leaf Success) (leaf Success) walk
         (leaf Success) (leaf Failure) !! 1 = Some (Some st))
  ∧ last [call_condition 0; call_condition 1; call_action 1]
    = Some (call_action 1).
Proof.
  apply (DecisionNode_tick_latch_valid
           (three_strategies (leaf Failure) (leaf Success) (leaf Success) walk
              (leaf Success) (leaf Failure))
           None (fresh_tree 0) (fresh_tree 3)
           [call_condition 0; call_condition 1; call_action 1] Running 1).
  reflexivity.
Defined.

(** [tree_x_y] with another frame under its top frame and other facts. *)
Definition tree_x_y_deeper : CountedTree :=
  mkTree (mkDict ∅) [mkScope {[ "x" := "y" ]}; mkScope {[ "x" := "w" ]}] 7.

Lemma getFactRef_top_frame_only_witness :
  getFactRef 3 facts_y_z "@#x" (Some tree_x_y)
  = getFactRef 3 facts_y_z "@#x" (Some tree_x_y_deeper).
Proof.
  apply (getFactRef_top_frame_only 3 facts_y_z "@#x" tree_x_y tree_x_y_deeper).
  reflexivity.
Defined.

Definition tree_v_v : CountedTree :=
  mkTree facts_y_z [mkScope {[ "v" := "#v" ]}] 0.

Lemma getFactRef_self_reference_witness :
  getFactRef 50 facts_y_z "#v" (Some tree_v_v) = ([], OutOfFuel)
  ∧ getFactRef 50 facts_y_z "@#v" (Some tree_v_v) = ([], OutOfFuel).
Proof.
  apply (getFactRef_self_reference 50 facts_y_z tree_v_v
           (mkScope {[ "v" := "#v" ]}) "v"); reflexivity.
Defined.

Definition facts_a_b_c : DictBlackboard :=
  mkDict (<[ "a" := "b" ]> {[ "b" := "c" ]}).

Lemma getFactRef_chain_witness :
  ∃ log,
    getFactRef 3 facts_a_b_c "@@a" (@None CountedTree)
    = (log, Returns (Some "c"))
    ∧ length log ≤ 2.
Proof.
  change (∃ log,
            getFactRef 3 facts_a_b_c (indirect 2 "a") (@None CountedTree)
            = (log, Returns (chase 2 facts_a_b_c "a"))
            ∧ length log ≤ 2).
  apply (getFactRef_chain facts_a_b_c (@None CountedTree) "a" 2 3).
  - split; reflexivity.
  - lia.
Defined.

Lemma getFactRef_no_tree_returns_witness :
  ∃ r, (getFactRef 5 facts_y_z "@@#x" (@None CountedTree)).2 = Returns r.
Proof.
  apply (getFactRef_no_tree_returns facts_y_z "@@#x" 5). simpl. lia.
Defined.

Lemma ScopeNode_frame_witness :
  (∀ name ref, (name, ref) ∈ [("who", "#x"); ("where", "home")] →
     ∃ l v,
       getFactRef 3 (m_blackboard tree_x_y) ref (Some tree_x_y)
       = (l, Returns (Some v))
       ∧ getScopedVar
           (pushScope (mkScope (<[ "where" := "home" ]> {[ "who" := "y" ]}))
              tree_x_y) name
         = Some v)
  ∧ (∀ name, name ∉ [("who", "#x"); ("where", "home")].*1 →
       getScopedVar
         (pushScope (mkScope (<[ "where" := "home" ]> {[ "who" := "y" ]}))
            tree_x_y) name
       = None).
Proof.
  apply (ScopeNode_frame 3 tree_x_y [("who", "#x"); ("where", "home")] []
           (<[ "where" := "home" ]> {[ "who" := "y" ]})).
  - apply (bool_decide_unpack _). reflexivity.
  - reflexivity.
Defined.

Lemma SetFactConst_then_read_witness :
  ∃ tree',
    SetFactConstNode_tick 2 "#x" "fresh" tree_x_y
    = ([], Returns (Success, tree'))
    ∧ getFact (m_blackboard tree') "y" = Some "fresh"
    ∧ FactEqualsConstantNode_tick 2 "#x" "fresh" tree'
      = ([call_getFact "y"], Returns (Success, tree'))
    ∧ FactExistsNode_tick "y" tree' = ([], Returns (Success, tree')).
Proof.
  apply (SetFactConst_then_read 2 "#x" "fresh" tree_x_y "y" "fresh");
    reflexivity.
Defined.

(** * The compiler: [Tree::createNode] *)

Section Compiler.
Context {B : Type} `{!Blackboard B} {Host : Type}.
Local Abbreviation Tree := (@Tree B Host).
Local Abbreviation NodeTick := (@NodeTick B Host).
Local Abbreviation NodePtr := (@NodePtr B Host).
(** [std::atoi], with its [int] result as an integer. *)
Variable atoi : string → Z.

(** [BaseNode::NodeTick] and [BaseNode::NodeDecorate], ofxBehaviourTree.h:41:
    the callables of a descriptor, which take the node's parameters (and,
    for a decorator, the child pointer) with the tree. *)
Definition LeafFn : Type := list string → NodeTick.
Definition DecorateFn : Type := NodePtr → list string → NodeTick.

(** [struct Node], ofxBehaviourTree.h:49; [None] is an empty
    [std::function]. *)
#[warnings="-register-all"]
Inductive Node : Type :=
  mkNode (m_name m_ref : string) (m_children : list Node)
    (m_params : list string) (m_leaf : option LeafFn)
    (m_decorator : option DecorateFn).

Definition name (node : Node) : string :=
  match node with mkNode n _ _ _ _ _ => n end.
Definition ref (node : Node) : string :=
  match node with mkNode _ r _ _ _ _ => r end.
Definition children (node : Node) : list Node :=
  match node with mkNode _ _ c _ _ _ => c end.
Definition params (node : Node) : list string :=
  match node with mkNode _ _ _ p _ _ => p end.
Definition leaf_of (node : Node) : option LeafFn :=
  match node with mkNode _ _ _ _ l _ => l end.
Definition decorator (node : Node) : option DecorateFn :=
  match node with mkNode _ _ _ _ _ d => d end.

(** [DecoratorNode::tick], ofxBehaviourTree.cpp:65: the callable is handed
    the child pointer and decides what to do with it. *)
Definition DecoratorNode_tick (m_tick : DecorateFn) (m_params : list string)
    (m_child : NodePtr) : NodeTick :=
  m_tick m_child m_params.

(** A value converted to [size_t]. *)
Definition to_size_t (z : Z) : N := Z.to_N (z mod 2 ^ 64).

(** [v[i]] for the parameter vector. *)
Definition param_at (v : list string) (i : nat) : Outcome string :=
  match v !! i with
  | Some p => Returns p
  | None => Undefined
  end.

(** What [static_unique_ptr_cast<StrategyNode>] is handed in the Decision
    case: a null pointer stays null; any other pointer is to a node that
    is not a [StrategyNode] (no case of [createNode] makes one), and the
    cast of it has no defined result. *)
Definition all_null (ptrs : list NodePtr) : bool :=
  forallb (λ p, match p with None => true | Some _ => false end) ptrs.

(** The cases of [Tree::createNode], ofxBehaviourTree.cpp:485, with the
    registry [nodeFactory], ofxBehaviourTree.cpp:376, for a descriptor with
    the given fields.  [compiled] is the result of the loop that compiles
    every child, [first] the result of compiling [children()[0]]; a case
    that does not run the loop, or does not take the first child, does not
    look at them.  [fuel] is the depth the fact nodes of the compiled tree
    allow their resolutions.  A Decision node leaves the constructor with
    [m_current] uninitialised and its tick starts by reading it, so the
    tick of the compiled node has no defined result. *)
Definition createNode_cases (fuel : nat) (m_name : string)
    (m_params : list string) (m_leaf : option LeafFn)
    (m_decorator : option DecorateFn) (compiled : Outcome (list NodePtr))
    (first : Outcome NodePtr) : Outcome NodePtr :=
  let composite (tick : list NodePtr → M Status) : Outcome NodePtr :=
    match compiled with
    | Returns ptrs => Returns (Some (as_node (tick ptrs)))
    | Undefined => Undefined
    | OutOfFuel => OutOfFuel
    end in
  let decorated (tick : NodePtr → M Status) : Outcome NodePtr :=
    match first with
    | Returns ptr => Returns (Some (as_node (tick ptr)))
    | Undefined => Undefined
    | OutOfFuel => OutOfFuel
    end in
  match m_leaf with
  | Some f => Returns (Some (LeafNode_tick (Some (f m_params))))
  | None =>
    match m_decorator with
    | Some d =>
      match first with
      | Returns ptr => Returns (Some (DecoratorNode_tick d m_params ptr))
      | Undefined => Undefined
      | OutOfFuel => OutOfFuel
      end
    | None =>
      if decide (m_name = "Selector") then composite SelectorNode_tick
      else if decide (m_name = "Sequence") then composite SequenceNode_tick
      else if decide (m_name = "Parallel") then
        match compiled with
        | Returns ptrs =>
          let threshold :=
            match m_params with
            | [] => to_size_t (Z.of_nat (length ptrs) - 1)
            | p :: _ => to_size_t (atoi p)
            end in
          Returns (Some (as_node (ParallelNode_tick threshold ptrs)))
        | Undefined => Undefined
        | OutOfFuel => OutOfFuel
        end
      else if decide (m_name = "UntilFalse")
        then composite RepeatWhileSuccessfulNode_tick
      else if decide (m_name = "UntilTrue")
        then composite RepeatWhileFailureNode_tick
      else if decide (m_name = "ReturnTrue") then decorated TrueDecoratorNode_tick
      else if decide (m_name = "ReturnFalse") then decorated FalseDecoratorNode_tick
      else if decide (m_name = "Negate") then decorated NegateDecoratorNode_tick
      else if decide (m_name = "FactExists") then
        match param_at m_params 0 with
        | Returns p => Returns (Some (as_node (FactExistsNode_tick p)))
        | _ => Undefined
        end
      else if decide (m_name = "RemoveFact") then
        match param_at m_params 0 with
        | Returns p => Returns (Some (as_node (RemoveFactNode_tick p)))
        | _ => Undefined
        end
      else if decide (m_name = "SetFactConst") then
        match param_at m_params 0, param_at m_params 1 with
        | Returns p, Returns q =>
            Returns (Some (as_node (SetFactConstNode_tick fuel p q)))
        | _, _ => Undefined
        end
      else if decide (m_name = "FactEqualsConst") then
        match param_at m_params 0, param_at m_params 1 with
        | Returns p, Returns q =>
            Returns (Some (as_node (FactEqualsConstantNode_tick fuel p q)))
        | _, _ => Undefined
        end
      else if decide (m_name = "Decision") then
        match compiled with
        | Returns ptrs =>
            if all_null ptrs then Returns (Some (λ _, Undefined))
            else Undefined
        | Undefined => Undefined
        | OutOfFuel => OutOfFuel
        end
      else Returns None
    end
  end.

(** [Tree::createNode], ofxBehaviourTree.cpp:485. *)
Fixpoint createNode (fuel : nat) (node : Node) {struct node}
    : Outcome NodePtr :=
  match node with
  | mkNode m_name m_ref m_children m_params m_leaf m_decorator =>
    createNode_cases fuel m_name m_params m_leaf m_decorator
      ((fix each (inners : list Node) : Outcome (list NodePtr) :=
          match inners with
          | [] => Returns []
          | inner :: rest =>
            match createNode fuel inner with
            | Returns ptr =>
              match each rest with
              | Returns ptrs => Returns (ptr :: ptrs)
              | Undefined => Undefined
              | OutOfFuel => OutOfFuel
              end
            | Undefined => Undefined
            | OutOfFuel => OutOfFuel
            end
          end) m_children)
      (match m_children with
       | [] => Undefined
       | inner :: _ => createNode fuel inner
       end)
  end.

(** The loop [for (auto inner : node.children())
    children.push_back(Tree::createNode(inner))] on its own. *)
Fixpoint createNodes (fuel : nat) (inners : list Node)
    : Outcome (list NodePtr) :=
  match inners with
  | [] => Returns []
  | inner :: rest =>
    match createNode fuel inner with
    | Returns ptr =>
      match createNodes fuel rest with
      | Returns ptrs => Returns (ptr :: ptrs)
      | Undefined => Undefined
      | OutOfFuel => OutOfFuel
      end
    | Undefined => Undefined
    | OutOfFuel => OutOfFuel
    end
  end.

(** [Tree::loadTree], ofxBehaviourTree.cpp:466: the new root and the
    result. *)
Definition loadTree (fuel : nat) (root : Node) : Outcome (NodePtr * bool) :=
  match createNode fuel root with
  | Returns m_root =>
      Returns (m_root, match m_root with Some _ => true | None => false end)
  | Undefined => Undefined
  | OutOfFuel => OutOfFuel
  end.

(** The kinds [createNode] knows. *)
Definition kinds : list string :=
  [ "Selector"; "Sequence"; "Parallel"; "UntilFalse"; "UntilTrue";
    "ReturnTrue"; "ReturnFalse"; "Negate"; "FactExists"; "RemoveFact";
    "SetFactConst"; "FactEqualsConst"; "Decision" ].

(** [createNode] on a descriptor, with the children loop by name. *)
Lemma createNode_eq fuel m_name m_ref m_children m_params m_leaf m_decorator :
  createNode fuel (mkNode m_name m_ref m_children m_params m_leaf m_decorator)
  = createNode_cases fuel m_name m_params m_leaf m_decorator
      (createNodes fuel m_children)
      (match m_children with
       | [] => Undefined
       | inner :: _ => createNode fuel inner
       end).
Proof.
  simpl. f_equal. induction m_children as [|inner rest IH]; [done|].
  simpl. destruct (createNode fuel inner); [|done..]. by rewrite IH.
Qed.

(** Induction on a descriptor with the property known of its children. *)
Section Node_induction.
Variable P : Node → Prop.
Hypothesis step : ∀ m_name m_ref m_children m_params m_leaf m_decorator,
  Forall P m_children →
  P (mkNode m_name m_ref m_children m_params m_leaf m_decorator).

Fixpoint Node_induction (node : Node) : P node :=
  match node with
  | mkNode m_name m_ref m_children m_params m_leaf m_decorator =>
    step m_name m_ref m_children m_params m_leaf m_decorator
      ((fix each (inners : list Node) : Forall P inners :=
          match inners with
          | [] => @List.Forall_nil _ P
          | inner :: rest =>
              @List.Forall_cons _ P inner rest (Node_induction inner) (each rest)
          end) m_children)
  end.
End Node_induction.

Ltac case_kinds :=
  repeat match goal with
         | |- context [decide (?n = ?k)] => destruct (decide (n = k))
         end.

(** X24. [createNode] returns the null pointer exactly for a descriptor
    with no leaf callable, no decorator callable and a name outside the
    thirteen kinds it knows; [loadTree] then reports failure, and the tick
    of the tree returns Invalid and leaves the tree as it was.  The kinds
    FirstReturn, AlwaysRun and Strategy, which the header declares, are
    such names. *)
Theorem createNode_null (fuel : nat) (node : Node) :
  (createNode fuel node = Returns None
   ↔ leaf_of node = None ∧ decorator node = None ∧ name node ∉ kinds)
  ∧ (createNode fuel node = Returns None →
     loadTree fuel node = Returns (None, false)
     ∧ ∀ tree : Tree, Tree_tick None tree = ([], Returns (Invalid, tree)))
  ∧ ("FirstReturn" ∉ kinds) ∧ ("AlwaysRun" ∉ kinds) ∧ ("Strategy" ∉ kinds).
Proof.
  split; [|split].
  - destruct node as [n r cs ps l d]. rewrite createNode_eq.
    unfold createNode_cases, kinds. simpl. rewrite !not_elem_of_cons. split.
    + destruct l; [done|]. destruct d.
      { by destruct cs as [|c ?]; [|destruct (createNode fuel c)]. }
      intros Hnull. split; [done|]. split; [done|]. revert Hnull.
      case_kinds; intros Hnull;
        try (by destruct (createNodes fuel cs) as [ptrs| |];
               [try destruct (all_null ptrs)| |]);
        try (by destruct cs as [|c ?]; [|destruct (createNode fuel c)]);
        try (by unfold param_at in Hnull;
               destruct (ps !! 0); [destruct (ps !! 1)|]).
      repeat (split; [done|]). apply not_elem_of_nil.
    + intros (-> & -> & Hn). by case_kinds; [destruct_and!; done..|].
  - intros Hnull. unfold loadTree. by rewrite Hnull.
  - unfold kinds. rewrite !not_elem_of_cons.
    by repeat split; try apply not_elem_of_nil.
Qed.

(** X25. A child of a kind [createNode] does not know, first in the child
    list of a composite whose other children compile: the composite
    compiles all the same.  The Sequence, the Selector and the Negate so
    built return Invalid on their tick without touching the tree; the
    repeat-while-successful (UntilFalse) and repeat-while-failure
    (UntilTrue) nodes so built dereference the null child on theirs. *)
Theorem createNode_unknown_child (fuel : nat) (unknown : Node)
    (rest : list Node) (ptrs : list NodePtr) (m_ref : string)
    (m_params : list string) (tree : Tree) :
  createNode fuel unknown = Returns None →
  createNodes fuel rest = Returns ptrs →
  let built kind :=
    createNode fuel (mkNode kind m_ref (unknown :: rest) m_params None None) in
  (∃ t, built "Sequence" = Returns (Some t) ∧ t tree = Returns (Invalid, tree))
  ∧ (∃ t, built "Selector" = Returns (Some t)
          ∧ t tree = Returns (Invalid, tree))
  ∧ (∃ t, built "Negate" = Returns (Some t) ∧ t tree = Returns (Invalid, tree))
  ∧ (∃ t, built "UntilFalse" = Returns (Some t) ∧ t tree = Undefined)
  ∧ (∃ t, built "UntilTrue" = Returns (Some t) ∧ t tree = Undefined).
Proof.
  intros Hunknown Hrest. cbv beta zeta. rewrite !createNode_eq.
  unfold createNode_cases. simpl. rewrite Hunknown, Hrest. simpl.
  repeat split; by eexists.
Qed.

(** A descriptor every case of [createNode] can take: a decorator and the
    three decorator kinds have a first child, the fact kinds have their
    parameters, there is no Decision, and the children that get compiled
    are such descriptors too. *)
Fixpoint well_formed (node : Node) : Prop :=
  match node with
  | mkNode m_name m_ref m_children m_params m_leaf m_decorator =>
    let all_children :=
      (fix each (inners : list Node) : Prop :=
         match inners with
         | [] => True
         | inner :: rest => well_formed inner ∧ each rest
         end) m_children in
    let first_child :=
      match m_children with
      | [] => False
      | inner :: _ => well_formed inner
      end in
    match m_leaf, m_decorator with
    | Some _, _ => True
    | None, Some _ => first_child
    | None, None =>
      if decide (m_name ∈ ["Selector"; "Sequence"; "Parallel"; "UntilFalse";
                           "UntilTrue"]) then all_children
      else if decide (m_name ∈ ["ReturnTrue"; "ReturnFalse"; "Negate"])
        then first_child
      else if decide (m_name ∈ ["FactExists"; "RemoveFact"])
        then 1 ≤ length m_params
      else if decide (m_name ∈ ["SetFactConst"; "FactEqualsConst"])
        then 2 ≤ length m_params
      else m_name ≠ "Decision"
    end
  end.

Ltac kind_in :=
  repeat first [apply list_elem_of_here | apply list_elem_of_further].
Ltac kind_out :=
  let Hin := fresh "Hin" in
  intros Hin;
  repeat (apply elem_of_cons in Hin as [Hin|Hin]; [discriminate|]);
  by apply elem_of_nil in Hin.

Lemma createNodes_returns fuel (inners : list Node) :
  Forall (λ inner, well_formed inner → ∃ ptr, createNode fuel inner = Returns ptr)
    inners →
  (fix each (inners : list Node) : Prop :=
     match inners with
     | [] => True
     | inner :: rest => well_formed inner ∧ each rest
     end) inners →
  ∃ ptrs, createNodes fuel inners = Returns ptrs.
Proof.
  induction 1 as [|inner rest Hinner _ IH]; [by eexists|].
  intros [Hwf Hrest]. simpl.
  destruct (Hinner Hwf) as [ptr ->]. destruct (IH Hrest) as [ptrs ->].
  by eexists.
Qed.

Lemma param_at_returns (v : list string) (i : nat) :
  i < length v → ∃ p, param_at v i = Returns p.
Proof.
  intros Hi. unfold param_at. destruct (lookup_lt_is_Some_2 v i Hi) as [p ->].
  by eexists.
Qed.

(** X26. A well-formed descriptor compiles: [createNode] returns, with a
    node or, for an unknown kind, with the null pointer. *)
Theorem createNode_well_formed (fuel : nat) (node : Node) :
  well_formed node → ∃ ptr, createNode fuel node = Returns ptr.
Proof.
  induction node as [n r cs ps l d IH] using Node_induction.
  rewrite createNode_eq. unfold createNode_cases. simpl.
  destruct l; [by eexists|]. destruct d.
  { destruct cs as [|c cs]; [done|]. apply Forall_cons in IH as [IHc _].
    intros Hwf. destruct (IHc Hwf) as [ptr ->]. by eexists. }
  assert (Hall : (fix each (inners : list Node) : Prop :=
                    match inners with
                    | [] => True
                    | inner :: rest => well_formed inner ∧ each rest
                    end) cs →
                 ∃ ptrs, createNodes fuel cs = Returns ptrs)
    by (by apply createNodes_returns).
  assert (Hfirst : match cs with
                   | [] => False
                   | inner :: _ => well_formed inner
                   end →
                   ∃ ptr, match cs with
                          | [] => Undefined
                          | inner :: _ => createNode fuel inner
                          end = Returns ptr).
  { destruct cs as [|c cs]; [done|]. by apply Forall_cons in IH as [IHc _]. }
  clear IH. case_kinds; subst; intros Hwf;
    repeat first [ rewrite decide_True in Hwf by kind_in
                 | rewrite decide_False in Hwf by kind_out ].
  all: try (destruct (Hall Hwf) as [ptrs ->]; simpl; by eexists).
  all: try (destruct (Hfirst Hwf) as [ptr ->]; simpl; by eexists).
  all: try (destruct (param_at_returns ps 0 ltac:(lia)) as [p ->];
            try destruct (param_at_returns ps 1 ltac:(lia)) as [q ->];
            simpl; by eexists).
  all: try done.
  by eexists.
Qed.

End Compiler.

(** ** The compiler at concrete descriptors *)

Definition no_atoi : string → Z := λ _, 0%Z.

Definition descriptor (kind : string) (inners : list (@Node DictBlackboard nat))
    (ps : list string) : @Node DictBlackboard nat :=
  mkNode kind "" inners ps None None.

(** A leaf descriptor, as [Node(const NodeTick&)] builds it. *)
Definition leaf_descriptor (s : Status) : @Node DictBlackboard nat :=
  mkNode "" "" [] [] (Some (λ _, leaf s)) None.

Lemma createNode_null_witness :
  createNode no_atoi 2 (descriptor "AlwaysRun" [leaf_descriptor Success] [])
  = Returns None
  ∧ loadTree no_atoi 2 (descriptor "AlwaysRun" [leaf_descriptor Success] [])
    = Returns (None, false).
Proof.
  pose proof (createNode_null no_atoi 2
                (descriptor "AlwaysRun" [leaf_descriptor Success] []))
    as (Hnull & Hload & Hkinds).
  assert (Hcompiled : createNode no_atoi 2
            (descriptor "AlwaysRun" [leaf_descriptor Success] [])
          = Returns None).
  { apply Hnull. split; [reflexivity|]. split; [reflexivity|].
    exact (proj1 (proj2 Hkinds)). }
  split; [exact Hcompiled|]. exact (proj1 (Hload Hcompiled)).
Defined.

Lemma createNode_unknown_child_witness :
  (∃ t, createNode no_atoi 2
          (descriptor "Sequence"
             [descriptor "AlwaysRun" [] []; leaf_descriptor Success] [])
        = Returns (Some t)
        ∧ t (fresh_tree 0) = Returns (Invalid, fresh_tree 0))
  ∧ (∃ t, createNode no_atoi 2
            (descriptor "Selector"
               [descriptor "AlwaysRun" [] []; leaf_descriptor Success] [])
          = Returns (Some t)
          ∧ t (fresh_tree 0) = Returns (Invalid, fresh_tree 0))
  ∧ (∃ t, createNode no_atoi 2
            (descriptor "Negate"
               [descriptor "AlwaysRun" [] []; leaf_descriptor Success] [])
          = Returns (Some t)
          ∧ t (fresh_tree 0) = Returns (Invalid, fresh_tree 0))
  ∧ (∃ t, createNode no_atoi 2
            (descriptor "UntilFalse"
               [descriptor "AlwaysRun" [] []; leaf_descriptor Success] [])
          = Returns (Some t)
          ∧ t (fresh_tree 0) = Undefined)
  ∧ (∃ t, createNode no_atoi 2
            (descriptor "UntilTrue"
               [descriptor "AlwaysRun" [] []; leaf_descriptor Success] [])
          = Returns (Some t)
          ∧ t (fresh_tree 0) = Undefined).
Proof.
  apply (createNode_unknown_child no_atoi 2 (descriptor "AlwaysRun" [] [])
           [leaf_descriptor Success]
           [Some (LeafNode_tick (Some (leaf Success)))] "" [] (fresh_tree 0));
    reflexivity.
Defined.

Lemma createNode_well_formed_witness :
  ∃ ptr,
    createNode no_atoi 2
      (descriptor "Sequence"
         [ descriptor "Negate" [leaf_descriptor Failure] [];
           descriptor "FactExists" [] ["x"];
           descriptor "FirstReturn" [] [] ] [])
    = Returns ptr.
Proof.
  apply (createNode_well_formed no_atoi 2).
  simpl. repeat split; (lia || discriminate).
Defined.

End BehaviourTree.

Module BTVM.

(** [enum class Status], ofxBehaviourTreeVM.h:12. *)
Inductive Status : Type := Invalid | Success | Failure | Running | Suspended.

#[export] Instance Status_eq_dec : EqDecision Status.
Proof. solve_decision. Defined.

(** [class DictBlackboard], ofxBehaviourTreeVM.h:20. *)
Record DictBlackboard : Type := mkBoard { m_board : gmap string string }.

Definition hasFact (this : DictBlackboard) (fact : string) : bool :=
  bool_decide (is_Some (m_board this !! fact)).
Definition getFact (this : DictBlackboard) (fact : string) : string :=
  default "" (m_board this !! fact).
Definition removeFact (fact : string) (this : DictBlackboard) : DictBlackboard :=
  mkBoard (delete fact (m_board this)).
Definition setFact (fact data : string) (this : DictBlackboard) : DictBlackboard :=
  mkBoard (<[fact := data]> (m_board this)).

(** [struct BehaviorTreeVMThread], ofxBehaviourTreeVM.h:32.  [m_pc] is an
    [off_t]; the additions on it are modelled in [Z], without the overflow
    of a 64-bit signed integer, which a [m_pc] that indexed the program
    cannot reach by adding a 16-bit offset. *)
Record BehaviorTreeVMThread : Type := mkThread {
  m_pc : Z;
  m_threadStart : nat;
  m_current : Status
}.

(** [BehaviorTreeVMThread::reset], ofxBehaviourTreeVM.cpp:145. *)
Definition reset (this : BehaviorTreeVMThread) : BehaviorTreeVMThread :=
  mkThread (Z.of_nat (m_threadStart this)) (m_threadStart this) Invalid.

(** [v[i]] for a signed index: nothing outside the vector. *)
Definition at_Z {A : Type} (v : list A) (i : Z) : option A :=
  if decide (0 ≤ i)%Z then v !! Z.to_nat i else None.

Section VM.
(** What the leaf callables capture. *)
Context {Host : Type}.

(** What a leaf is handed, [BehaviorTreeVMThread*] and [DictBlackboard*],
    with the state it captured. *)
Definition LeafState : Type := BehaviorTreeVMThread * DictBlackboard * Host.

(** [bt_runner], [bt_decorator]: a [std::function], [None] when empty
    (calling it throws). *)
Definition bt_runner : Type := option (LeafState → Outcome (Status * LeafState)).

(** [struct BehaviorTreeVMProgram], ofxBehaviourTreeVM.cpp:19.  The cells
    of [m_program] are [int16_t]. *)
Record BehaviorTreeVMProgram : Type := mkProgram {
  m_program : list Z;
  m_leaves : list bt_runner;
  m_decoratorNodes : list bt_runner;
  m_stringTable : list string
}.

(** [class BehaviorTreeVM], ofxBehaviourTreeVM.h:43.  [vm_program] is its
    field [m_program], the shared pointer to the program. *)
Record BehaviorTreeVM : Type := mkVM {
  blackboard : DictBlackboard;
  vm_program : option BehaviorTreeVMProgram;
  m_threads : list BehaviorTreeVMThread;
  m_host : Host
}.

(** [struct ops]: the opcodes, numbered from [run = 0] by [successor]. *)
Definition op_run : Z := 0.
Definition op_run_thr : Z := 1.
Definition op_run_dec : Z := 2.
Definition op_bra_f : Z := 3.
Definition op_bra_t : Z := 4.
Definition op_set_f : Z := 5.
Definition op_set_t : Z := 6.
Definition op_neg : Z := 7.
Definition op_chk_fact : Z := 8.
Definition op_rm_fact : Z := 9.

(** Writes through the [thread] pointer, which points at
    [vm->m_threads[thread]]. *)
Definition set_thread (thread : nat) (thr : BehaviorTreeVMThread)
    (vm : BehaviorTreeVM) : BehaviorTreeVM :=
  mkVM (blackboard vm) (vm_program vm) (<[thread := thr]> (m_threads vm))
    (m_host vm).
Definition with_current (s : Status) (thr : BehaviorTreeVMThread)
    : BehaviorTreeVMThread :=
  mkThread (m_pc thr) (m_threadStart thr) s.
Definition with_pc (pc : Z) (thr : BehaviorTreeVMThread)
    : BehaviorTreeVMThread :=
  mkThread pc (m_threadStart thr) (m_current thr).

(** [case ops::run] and [case ops::run_dec], ofxBehaviourTreeVM.cpp:51 and
    :75: the two bodies are the same, and both index [m_leaves].  The
    leaf's result is stored in [m_current]; [m_pc] moves on two cells for
    Failure, Success and Running. *)
Definition eval_run (this : BehaviorTreeVMProgram) (vm : BehaviorTreeVM)
    (thread : nat) (thr : BehaviorTreeVMThread)
    : list Call * Outcome (Status * BehaviorTreeVM) :=
  match at_Z (m_program this) (m_pc thr + 1) with
  | None => ([], Undefined)
  | Some index =>
    match at_Z (m_leaves this) index with
    | None | Some None => ([], Undefined)
    | Some (Some leaf) =>
      match leaf (thr, blackboard vm, m_host vm) with
      | Returns (status, (thr', blackboard', host')) =>
          let thr' := with_current status thr' in
          let vm' := mkVM blackboard' (vm_program vm) (m_threads vm) host' in
          if decide (status = Failure ∨ status = Success ∨ status = Running)
          then ([call_leaf (Z.to_nat index)],
                Returns (Running,
                         set_thread thread (with_pc (m_pc thr' + 2) thr') vm'))
          else ([call_leaf (Z.to_nat index)],
                Returns (status, set_thread thread thr' vm'))
      | Undefined => ([call_leaf (Z.to_nat index)], Undefined)
      | OutOfFuel => ([call_leaf (Z.to_nat index)], OutOfFuel)
      end
    end
  end.

(** [case ops::bra_f] and [case ops::bra_t], ofxBehaviourTreeVM.cpp:87 and
    :96, with [when] the status that takes the branch.  The offset cell is
    read only when the branch is taken. *)
Definition eval_branch (when : Status) (this : BehaviorTreeVMProgram)
    (vm : BehaviorTreeVM) (thread : nat) (thr : BehaviorTreeVMThread)
    : list Call * Outcome (Status * BehaviorTreeVM) :=
  if decide (m_current thr = when) then
    match at_Z (m_program this) (m_pc thr + 1) with
    | None => ([], Undefined)
    | Some off =>
        ([], Returns (Running, set_thread thread (with_pc (m_pc thr + off) thr) vm))
    end
  else ([], Returns (Running, set_thread thread (with_pc (m_pc thr + 2) thr) vm)).

(** [BehaviorTreeVMProgram::eval], ofxBehaviourTreeVM.cpp:45.  [thread] is
    the position in [vm->m_threads] of the thread the pointer points at;
    [blackboard] is [&vm->blackboard], as [step] passes it.  [run_thr]
    makes the function recursive with nothing that bounds the depth, hence
    [fuel]. *)
Fixpoint eval (fuel : nat) (this : BehaviorTreeVMProgram) (vm : BehaviorTreeVM)
    (thread : nat) : list Call * Outcome (Status * BehaviorTreeVM) :=
  match fuel with
  | O => ([], OutOfFuel)
  | S fuel =>
    match m_threads vm !! thread with
    | None => ([], Undefined)
    | Some thr =>
      (* thread->m_current = Status::Invalid; *)
      let thr := with_current Invalid thr in
      let vm := set_thread thread thr vm in
      match at_Z (m_program this) (m_pc thr) with
      | None => ([], Undefined)
      | Some op =>
        if decide (op = op_run) then eval_run this vm thread thr
        else if decide (op = op_run_thr) then
          match at_Z (m_program this) (m_pc thr + 1) with
          | None => ([], Undefined)
          | Some index =>
            if decide (0 ≤ index)%Z then
              match eval fuel this vm (Z.to_nat index) with
              | (log, Returns (_, vm')) =>
                match m_threads vm' !! Z.to_nat index, m_threads vm' !! thread with
                | Some other_thread, Some thr' =>
                    let thr' := with_current (m_current other_thread) thr' in
                    if decide (m_current thr' ≠ Invalid)
                    then (log, Returns (Running,
                            set_thread thread (with_pc (m_pc thr' + 2) thr') vm'))
                    else (log, Returns (m_current thr',
                            set_thread thread thr' vm'))
                | _, _ => (log, Undefined)
                end
              | (log, Undefined) => (log, Undefined)
              | (log, OutOfFuel) => (log, OutOfFuel)
              end
            else ([], Undefined)
          end
        else if decide (op = op_run_dec) then eval_run this vm thread thr
        else if decide (op = op_bra_f) then eval_branch Failure this vm thread thr
        else if decide (op = op_bra_t) then eval_branch Success this vm thread thr
        else if decide (op = op_set_f) then
          ([], Returns (Running,
             set_thread thread (with_pc (m_pc thr + 1) (with_current Failure thr)) vm))
        else if decide (op = op_set_t) then
          ([], Returns (Running,
             set_thread thread (with_pc (m_pc thr + 1) (with_current Success thr)) vm))
        else if decide (op = op_neg) then
          let current :=
            if decide (m_current thr = Failure) then Success
            else if decide (m_current thr = Success) then Failure
            else m_current thr in
          ([], Returns (Running,
             set_thread thread (with_pc (m_pc thr + 1) (with_current current thr)) vm))
        else if decide (op = op_chk_fact) then
          match at_Z (m_stringTable this) (m_pc thr + 1) with
          | None => ([], Undefined)
          | Some fact =>
              let current :=
                if hasFact (blackboard vm) fact then Success else Failure in
              ([], Returns (Running,
                 set_thread thread
                   (with_pc (m_pc thr + 2) (with_current current thr)) vm))
          end
        else if decide (op = op_rm_fact) then
          match at_Z (m_stringTable this) (m_pc thr + 1) with
          | None => ([], Undefined)
          | Some fact =>
              let vm' := mkVM (removeFact fact (blackboard vm)) (vm_program vm)
                           (m_threads vm) (m_host vm) in
              ([], Returns (Running,
                 set_thread thread
                   (with_pc (m_pc thr + 2) (with_current Success thr)) vm'))
          end
        else ([], Returns (Invalid, vm))
      end
    end
  end.

(** [BehaviorTreeVMThread::step], ofxBehaviourTreeVM.cpp:139, for a
    non-null [vm] (a null one returns Invalid and touches nothing). *)
Definition step (fuel : nat) (thread : nat) (vm : BehaviorTreeVM)
    : list Call * Outcome (Status * BehaviorTreeVM) :=
  match vm_program vm with
  | None => ([], Undefined)
  | Some program => eval fuel program vm thread
  end.

(** ** Fetching cells *)

Lemma at_Z_of_nat {A : Type} (v : list A) (i : Z) (k : nat) :
  i = Z.of_nat k → at_Z v i = v !! k.
Proof.
  intros ->. unfold at_Z. rewrite decide_True by lia. by rewrite Nat2Z.id.
Qed.

(** The cell [k] places after the start of a block of the program. *)
Lemma fetch (program : BehaviorTreeVMProgram) (pre cells rest : list Z)
    (pc : Z) (k : nat) (c : Z) :
  m_program program = pre ++ cells ++ rest →
  cells !! k = Some c →
  pc = (Z.of_nat (length pre) + Z.of_nat k)%Z →
  at_Z (m_program program) pc = Some c.
Proof.
  intros -> Hk ->. rewrite (at_Z_of_nat _ _ (length pre + k)) by lia.
  rewrite lookup_app_r by lia.
  replace (length pre + k - length pre) with k by lia.
  by rewrite lookup_app_l by (by apply lookup_lt_Some in Hk).
Qed.

(** [eval] on a [run] and on a [bra_f] cell: the thread's [m_current] is
    overwritten with Invalid before the opcode is looked at. *)
Lemma eval_op_run fuel this vm thread thr :
  m_threads vm !! thread = Some thr →
  at_Z (m_program this) (m_pc thr) = Some op_run →
  eval (S fuel) this vm thread
  = eval_run this (set_thread thread (with_current Invalid thr) vm) thread
      (with_current Invalid thr).
Proof. intros Hthr Hop. simpl. rewrite Hthr. simpl. by rewrite Hop. Qed.

Lemma eval_op_bra_f fuel this vm thread thr :
  m_threads vm !! thread = Some thr →
  at_Z (m_program this) (m_pc thr) = Some op_bra_f →
  eval (S fuel) this vm thread
  = eval_branch Failure this (set_thread thread (with_current Invalid thr) vm)
      thread (with_current Invalid thr).
Proof. intros Hthr Hop. simpl. rewrite Hthr. simpl. by rewrite Hop. Qed.

(** The thread just written is the thread read next. *)
Ltac written_thread :=
  simpl; apply list_lookup_insert_eq; rewrite ?length_insert; assumption.

Lemma step_program fuel thread vm program :
  vm_program vm = Some program →
  step fuel thread vm = eval fuel program vm thread.
Proof. intros Hprog. unfold step. by rewrite Hprog. Qed.

(** The block of C8: run leaf 0, branch on Failure by 4 cells, run leaf 1. *)
Definition run_branch_run : list Z :=
  [op_run; 0; op_bra_f; 4; op_run; 1]%Z.

(** C8, what the code does. The block [run 0; bra_f +4; run 1] sits at the
    thread's start, the thread is at its start, and leaf 0 returns Failure
    without moving [m_pc].  The first step calls leaf 0 and moves to the
    branch.  The second step overwrites [m_current] with Invalid before it
    tests it, so the branch is not taken: [m_pc] ends at start + 4, the
    [run 1] cell, not at the branch target start + 6, and the third step
    calls leaf 1. *)
Theorem step_branch_after_failure (fuel : nat) (vm : BehaviorTreeVM)
    (program : BehaviorTreeVMProgram) (thread : nat)
    (thr thr1 : BehaviorTreeVMThread) (pre rest : list Z)
    (leaf0 leaf1 : LeafState → Outcome (Status * LeafState))
    (blackboard1 : DictBlackboard) (host1 : Host) :
  vm_program vm = Some program →
  m_program program = pre ++ run_branch_run ++ rest →
  m_leaves program !! 0 = Some (Some leaf0) →
  m_leaves program !! 1 = Some (Some leaf1) →
  m_threads vm !! thread = Some thr →
  m_threadStart thr = length pre →
  m_pc thr = Z.of_nat (m_threadStart thr) →
  leaf0 (with_current Invalid thr, blackboard vm, m_host vm)
  = Returns (Failure, (thr1, blackboard1, host1)) →
  m_pc thr1 = m_pc thr →
  ∃ vm1 vm2 thr2,
    step (S fuel) thread vm = ([call_leaf 0], Returns (Running, vm1))
    ∧ step (S fuel) thread vm1 = ([], Returns (Running, vm2))
    ∧ m_threads vm2 !! thread = Some thr2
    ∧ m_pc thr2 = (m_pc thr + 4)%Z
    ∧ m_current thr2 = Invalid
    ∧ (step (S fuel) thread vm2).1 = [call_leaf 1].
Proof.
  intros Hprog Hcells Hleaf0 Hleaf1 Hthr Hstart Hpc Hrun Hpc1.
  rewrite Hstart in Hpc.
  pose proof (lookup_lt_Some _ _ _ Hthr) as Hlt.
  eexists _, _, _. split; [|split; [|split; [|split; [|split]]]].
  - rewrite (step_program _ _ _ _ Hprog).
    rewrite (eval_op_run _ _ _ _ thr Hthr)
      by (apply (fetch _ _ _ _ _ 0 _ Hcells); [done | lia]).
    unfold eval_run. simpl.
    rewrite (fetch _ _ _ _ _ 1 0%Z Hcells) by (done || lia).
    rewrite (at_Z_of_nat (m_leaves program) 0 0 eq_refl).
    unfold bt_runner in *. rewrite Hleaf0, Hrun. simpl. reflexivity.
  - rewrite (step_program _ _ _ program) by exact Hprog.
    erewrite eval_op_bra_f;
      [| written_thread
       | simpl; apply (fetch _ _ _ _ _ 2 _ Hcells); [done | lia] ].
    unfold eval_branch. simpl. reflexivity.
  - written_thread.
  - simpl. lia.
  - reflexivity.
  - rewrite (step_program _ _ _ program) by exact Hprog.
    erewrite eval_op_run;
      [| written_thread
       | simpl; apply (fetch _ _ _ _ _ 4 _ Hcells); [done | lia] ].
    unfold eval_run. simpl.
    rewrite (fetch _ _ _ _ _ 5 1%Z Hcells) by (done || lia).
    rewrite (at_Z_of_nat (m_leaves program) 1 1 eq_refl).
    unfold bt_runner in *. rewrite Hleaf1.
    by destruct (leaf1 _) as [[s [[? ?] ?]]| |]; [destruct (decide _)| |].
Qed.

End VM.

(** ** The theorem at a concrete program

    One thread at cell 0 of [run 0; bra_f +4; run 1]; the host state counts
    the leaf calls; leaf 0 returns Failure. *)

Definition counting_leaf (s : Status) : @bt_runner nat :=
  Some (λ '(thr, board, calls), Returns (s, (thr, board, S calls))).

Definition program_rbr : @BehaviorTreeVMProgram nat :=
  mkProgram run_branch_run [counting_leaf Failure; counting_leaf Success] [] [].

Definition vm_rbr : @BehaviorTreeVM nat :=
  mkVM (mkBoard ∅) (Some program_rbr) [reset (mkThread 0 0 Invalid)] 0.

(** The failing input of C8: after the run step and the branch step the
    thread is at cell 4, where [run 1] sits, and the third step calls
    leaf 1. *)
Lemma step_branch_after_failure_witness :
  ∃ vm1 vm2 thr2,
    step 1 0 vm_rbr = ([call_leaf 0], Returns (Running, vm1))
    ∧ step 1 0 vm1 = ([], Returns (Running, vm2))
    ∧ m_threads vm2 !! 0 = Some thr2
    ∧ m_pc thr2 = 4%Z
    ∧ m_current thr2 = Invalid
    ∧ (step 1 0 vm2).1 = [call_leaf 1].
Proof.
  apply (step_branch_after_failure 0 vm_rbr program_rbr 0
           (mkThread 0 0 Invalid) (mkThread 0 0 Invalid) [] []
           (λ '(thr, board, calls), Returns (Failure, (thr, board, S calls)))
           (λ '(thr, board, calls), Returns (Success, (thr, board, S calls)))
           (mkBoard ∅) 1); reflexivity.
Defined.

(** * More of the VM *)

(** X17. The VM's [DictBlackboard]: a fact set is the fact read back and
    is present; a fact removed is absent; neither touches another name;
    and reading an absent fact gives the empty string, so [getFact] alone
    cannot tell an absent fact from one set to the empty string. *)
Theorem DictBlackboard_facts (this : DictBlackboard) (fact data : string) :
  getFact (setFact fact data this) fact = data
  ∧ hasFact (setFact fact data this) fact = true
  ∧ hasFact (removeFact fact this) fact = false
  ∧ getFact (removeFact fact this) fact = ""
  ∧ getFact (setFact fact "" this) fact = getFact (removeFact fact this) fact
  ∧ (∀ other, other ≠ fact →
       getFact (setFact fact data this) other = getFact this other
       ∧ hasFact (setFact fact data this) other = hasFact this other
       ∧ getFact (removeFact fact this) other = getFact this other
       ∧ hasFact (removeFact fact this) other = hasFact this other).
Proof.
  unfold getFact, hasFact, setFact, removeFact. simpl.
  rewrite !lookup_insert_eq, !lookup_delete_eq. simpl.
  repeat (split; [done|]). intros other Hother.
  by rewrite lookup_insert_ne, lookup_delete_ne.
Qed.

Section Steps.
Context {Host : Type}.
Local Abbreviation BehaviorTreeVM := (@BehaviorTreeVM Host).
Local Abbreviation BehaviorTreeVMProgram := (@BehaviorTreeVMProgram Host).

Lemma set_thread_twice (vm : BehaviorTreeVM) thread thr thr' :
  set_thread thread thr' (set_thread thread thr vm) = set_thread thread thr' vm.
Proof. unfold set_thread. simpl. by rewrite list_insert_insert_eq. Qed.

Lemma set_thread_lookup (vm : BehaviorTreeVM) thread thr old :
  m_threads vm !! thread = Some old →
  m_threads (set_thread thread thr vm) !! thread = Some thr.
Proof.
  intros Hold. simpl. apply list_lookup_insert_eq.
  by apply lookup_lt_Some in Hold.
Qed.

(** The step from a state and from that state with another [m_current]
    in the thread. *)
Lemma eval_same_but_current (fuel : nat) (this : BehaviorTreeVMProgram)
    (vm : BehaviorTreeVM) (thread : nat) (thr : BehaviorTreeVMThread)
    (current : Status) :
  m_threads vm !! thread = Some thr →
  eval fuel this (set_thread thread (with_current current thr) vm) thread
  = eval fuel this vm thread.
Proof.
  intros Hthr. destruct fuel as [|fuel]; [done|].
  cbn [eval]. rewrite (set_thread_lookup _ _ _ _ Hthr), Hthr.
  cbn zeta. rewrite set_thread_twice.
  by change (with_current Invalid (with_current current thr))
    with (with_current Invalid thr).
Qed.

(** X18. What a thread's [m_current] holds when a step starts has no
    effect on the step: [eval] overwrites it before it reads the opcode,
    so the steps from two states that differ only in the [m_current] of
    the stepped thread make the same calls, return the same status and
    leave the same state. *)
Theorem eval_forgets_current (fuel : nat) (this : BehaviorTreeVMProgram)
    (vm : BehaviorTreeVM) (thread : nat) (thr : BehaviorTreeVMThread)
    (current current' : Status) :
  m_threads vm !! thread = Some thr →
  eval fuel this (set_thread thread (with_current current thr) vm) thread
  = eval fuel this (set_thread thread (with_current current' thr) vm) thread.
Proof.
  intros Hthr. rewrite (eval_same_but_current _ _ _ _ _ current Hthr).
  by rewrite (eval_same_but_current _ _ _ _ _ current' Hthr).
Qed.

(** X19. A step on [bra_f], [bra_t] or [neg] never acts on a status: the
    branch is not taken, its offset cell is not even read, and [neg]
    negates nothing.  The step returns Running, [m_pc] moves to the next
    instruction and [m_current] is Invalid afterwards. *)
Theorem eval_branch_neg (fuel : nat) (this : BehaviorTreeVMProgram)
    (vm : BehaviorTreeVM) (thread : nat) (thr : BehaviorTreeVMThread)
    (op : Z) :
  m_threads vm !! thread = Some thr →
  at_Z (m_program this) (m_pc thr) = Some op →
  (op = op_bra_f ∨ op = op_bra_t →
   eval (S fuel) this vm thread
   = ([], Returns (Running,
         set_thread thread
           (mkThread (m_pc thr + 2) (m_threadStart thr) Invalid) vm)))
  ∧ (op = op_neg →
     eval (S fuel) this vm thread
     = ([], Returns (Running,
           set_thread thread
             (mkThread (m_pc thr + 1) (m_threadStart thr) Invalid) vm))).
Proof.
  intros Hthr Hop. split.
  - intros [-> | ->]; cbn [eval]; rewrite Hthr; cbn zeta;
      cbn [m_pc with_current]; rewrite Hop; simpl;
      unfold eval_branch; simpl; by rewrite set_thread_twice.
  - intros ->. cbn [eval]. rewrite Hthr. cbn zeta.
    cbn [m_pc with_current]. rewrite Hop. simpl.
    by rewrite set_thread_twice.
Qed.

(** X20. A cell that is no opcode stops the thread: the step returns
    Invalid with [m_pc] where it was, and so does every step after it,
    without changing the state any more. *)
Theorem eval_unknown_opcode (fuel fuel' : nat) (this : BehaviorTreeVMProgram)
    (vm : BehaviorTreeVM) (thread : nat) (thr : BehaviorTreeVMThread)
    (op : Z) :
  m_threads vm !! thread = Some thr →
  at_Z (m_program this) (m_pc thr) = Some op →
  (op < 0 ∨ 9 < op)%Z →
  eval (S fuel) this vm thread
  = ([], Returns (Invalid, set_thread thread (with_current Invalid thr) vm))
  ∧ eval (S fuel') this (set_thread thread (with_current Invalid thr) vm) thread
    = ([], Returns (Invalid, set_thread thread (with_current Invalid thr) vm)).
Proof.
  intros Hthr Hop Hrange.
  assert (Hstep : ∀ f,
    eval (S f) this vm thread
    = ([], Returns (Invalid, set_thread thread (with_current Invalid thr) vm))).
  { intros f. cbn [eval]. rewrite Hthr. cbn zeta. cbn [m_pc with_current].
    rewrite Hop.
    unfold op_run, op_run_thr, op_run_dec, op_bra_f, op_bra_t, op_set_f,
      op_set_t, op_neg, op_chk_fact, op_rm_fact.
    repeat (rewrite decide_False by lia). done. }
  split; [apply Hstep|].
  rewrite eval_same_but_current by done. apply Hstep.
Qed.

(** X21. A [run_thr] whose operand is the stepped thread itself: the step
    calls [eval] on the same thread at the same instruction, and never
    returns, whatever the depth allowed. *)
Theorem eval_run_thr_self (this : BehaviorTreeVMProgram) (thread : nat)
    (fuel : nat) (vm : BehaviorTreeVM) (thr : BehaviorTreeVMThread) :
  m_threads vm !! thread = Some thr →
  at_Z (m_program this) (m_pc thr) = Some op_run_thr →
  at_Z (m_program this) (m_pc thr + 1) = Some (Z.of_nat thread) →
  eval fuel this vm thread = ([], OutOfFuel).
Proof.
  revert vm thr. induction fuel as [|fuel IH]; intros vm thr Hthr Hop Hidx;
    [done|].
  cbn [eval]. rewrite Hthr. cbn zeta. cbn [m_pc with_current].
  rewrite Hop, Hidx. simpl. rewrite decide_True by lia. rewrite Nat2Z.id.
  rewrite (IH _ (with_current Invalid thr)); [done | | done | done].
  by apply (set_thread_lookup _ _ _ thr).
Qed.

(** What no step changes: the number of threads and the program pointer. *)
Definition same_shape (vm vm' : BehaviorTreeVM) : Prop :=
  length (m_threads vm') = length (m_threads vm)
  ∧ vm_program vm' = vm_program vm.

Lemma same_shape_set_thread (vm vm' : BehaviorTreeVM) thread thr :
  same_shape vm vm' → same_shape vm (set_thread thread thr vm').
Proof. intros [Hlen Hprog]. split; simpl; [by rewrite length_insert | done]. Qed.

Lemma eval_run_same_shape (this : BehaviorTreeVMProgram) (vm0 vm : BehaviorTreeVM)
    thread thr log s vm' :
  same_shape vm0 vm →
  eval_run this vm thread thr = (log, Returns (s, vm')) →
  same_shape vm0 vm'.
Proof.
  intros [Hlen Hprog]. unfold eval_run.
  destruct (at_Z (m_program this) (m_pc thr + 1)) as [index|]; [|done].
  destruct (at_Z (m_leaves this) index) as [[leaf|]|]; [|done..].
  destruct (leaf _) as [[status [[thr' board'] host']]| |]; [|done..].
  destruct (decide _); intros [= _ _ <-];
    apply same_shape_set_thread; by split.
Qed.

Lemma eval_branch_same_shape when (this : BehaviorTreeVMProgram)
    (vm0 vm : BehaviorTreeVM) thread thr log s vm' :
  same_shape vm0 vm →
  eval_branch when this vm thread thr = (log, Returns (s, vm')) →
  same_shape vm0 vm'.
Proof.
  intros Hshape. unfold eval_branch. destruct (decide _).
  - destruct (at_Z _ _); [|done]. intros [= _ _ <-].
    by apply same_shape_set_thread.
  - intros [= _ _ <-]. by apply same_shape_set_thread.
Qed.

(** X22. No step, whatever the opcode and whatever the leaves and the
    threads it runs do, adds or removes a thread or replaces the
    program. *)
Theorem eval_same_shape (fuel : nat) (this : BehaviorTreeVMProgram)
    (vm vm' : BehaviorTreeVM) (thread : nat) (log : list Call) (s : Status) :
  eval fuel this vm thread = (log, Returns (s, vm')) →
  length (m_threads vm') = length (m_threads vm)
  ∧ vm_program vm' = vm_program vm.
Proof.
  change (eval fuel this vm thread = (log, Returns (s, vm')) →
          same_shape vm vm').
  revert vm vm' thread log s.
  induction fuel as [|fuel IH]; intros vm vm' thread log s; [done|].
  cbn [eval]. destruct (m_threads vm !! thread) as [thr|]; [|done].
  cbn zeta.
  assert (Hvm : same_shape vm (set_thread thread (with_current Invalid thr) vm))
    by (by apply same_shape_set_thread).
  destruct (at_Z (m_program this) (m_pc (with_current Invalid thr)))
    as [op|]; [|done].
  destruct (decide (op = op_run)); [by apply eval_run_same_shape|].
  destruct (decide (op = op_run_thr)).
  { destruct (at_Z _ _) as [index|]; [|done].
    destruct (decide _); [|done].
    destruct (eval fuel this _ (Z.to_nat index)) as [log1 [[s1 vm1]| |]]
      eqn:Hrec; [|done..].
    apply IH in Hrec.
    assert (Hvm1 : same_shape vm vm1).
    { destruct Hvm as [? ?], Hrec as [? ?]. split; congruence. }
    destruct (m_threads vm1 !! Z.to_nat index); [|done].
    destruct (m_threads vm1 !! thread); [|done].
    destruct (decide _); intros [= _ _ <-]; by apply same_shape_set_thread. }
  destruct (decide (op = op_run_dec)); [by apply eval_run_same_shape|].
  destruct (decide (op = op_bra_f)); [by apply eval_branch_same_shape|].
  destruct (decide (op = op_bra_t)); [by apply eval_branch_same_shape|].
  destruct (decide (op = op_set_f)).
  { intros [= _ _ <-]. by apply same_shape_set_thread. }
  destruct (decide (op = op_set_t)).
  { intros [= _ _ <-]. by apply same_shape_set_thread. }
  destruct (decide (op = op_neg)).
  { intros [= _ _ <-]. by apply same_shape_set_thread. }
  destruct (decide (op = op_chk_fact)).
  { destruct (at_Z _ _); [|done]. intros [= _ _ <-].
    by apply same_shape_set_thread. }
  destruct (decide (op = op_rm_fact)).
  { destruct (at_Z _ _); [|done]. intros [= _ _ <-].
    apply same_shape_set_thread. destruct Hvm. by split. }
  by intros [= _ _ <-].
Qed.

(** X27. The status a step returns is never Success or Failure: it is
    Running, Invalid, or the Suspended a leaf returned.  What the
    instruction settled is left in the thread's [m_current] only. *)
Theorem eval_status (fuel : nat) (this : BehaviorTreeVMProgram)
    (vm vm' : BehaviorTreeVM) (thread : nat) (log : list Call) (s : Status) :
  eval fuel this vm thread = (log, Returns (s, vm')) →
  s = Running ∨ s = Invalid ∨ (s = Suspended ∧ log ≠ []).
Proof.
  assert (Hrun : ∀ (vm0 : BehaviorTreeVM) thr,
    eval_run this vm0 thread thr = (log, Returns (s, vm')) →
    s = Running ∨ s = Invalid ∨ (s = Suspended ∧ log ≠ [])).
  { intros vm0 thr. unfold eval_run.
    destruct (at_Z (m_program this) (m_pc thr + 1)) as [index|]; [|done].
    destruct (at_Z (m_leaves this) index) as [[leaf|]|]; [|done..].
    destruct (leaf _) as [[status [[thr' board'] host']]| |]; [|done..].
    destruct (decide _) as [|Hno]; intros [= <- <- _]; [by left|].
    destruct status; auto; exfalso; apply Hno; auto. }
  assert (Hbranch : ∀ when (vm0 : BehaviorTreeVM) thr,
    eval_branch when this vm0 thread thr = (log, Returns (s, vm')) →
    s = Running ∨ s = Invalid ∨ (s = Suspended ∧ log ≠ [])).
  { intros when vm0 thr. unfold eval_branch. destruct (decide _).
    - destruct (at_Z _ _); [|done]. intros [= _ <- _]. by left.
    - intros [= _ <- _]. by left. }
  destruct fuel as [|fuel]; [done|].
  cbn [eval]. destruct (m_threads vm !! thread) as [thr|]; [|done].
  cbn zeta.
  destruct (at_Z (m_program this) (m_pc (with_current Invalid thr)))
    as [op|]; [|done].
  destruct (decide (op = op_run)); [by apply Hrun|].
  destruct (decide (op = op_run_thr)).
  { destruct (at_Z _ _) as [index|]; [|done].
    destruct (decide _); [|done].
    destruct (eval fuel this _ (Z.to_nat index)) as [log1 [[s1 vm1]| |]];
      [|done..].
    destruct (m_threads vm1 !! Z.to_nat index) as [other|]; [|done].
    destruct (m_threads vm1 !! thread); [|done].
    destruct (decide _) as [|Hinv]; intros [= _ <- _]; [by left|].
    right. left. simpl in Hinv. by apply dec_stable in Hinv. }
  destruct (decide (op = op_run_dec)); [by apply Hrun|].
  destruct (decide (op = op_bra_f)); [by apply Hbranch|].
  destruct (decide (op = op_bra_t)); [by apply Hbranch|].
  destruct (decide (op = op_set_f)); [intros [= _ <- _]; by left|].
  destruct (decide (op = op_set_t)); [intros [= _ <- _]; by left|].
  destruct (decide (op = op_neg)); [intros [= _ <- _]; by left|].
  destruct (decide (op = op_chk_fact)).
  { destruct (at_Z _ _); [|done]. intros [= _ <- _]. by left. }
  destruct (decide (op = op_rm_fact)).
  { destruct (at_Z _ _); [|done]. intros [= _ <- _]. by left. }
  intros [= _ <- _]. by right; left.
Qed.

End Steps.

(** ** The theorems above at concrete programs *)

Definition vm_of (cells : list Z) (current : Status) : @BehaviorTreeVM nat :=
  mkVM (mkBoard ∅)
    (Some (mkProgram cells [counting_leaf Failure; counting_leaf Success] [] []))
    [mkThread 0 0 current] 0.

Definition program_of (cells : list Z) : @BehaviorTreeVMProgram nat :=
  mkProgram cells [counting_leaf Failure; counting_leaf Success] [] [].

Lemma eval_forgets_current_witness :
  eval 1 program_rbr
    (set_thread 0 (with_current Success (mkThread 0 0 Invalid)) vm_rbr) 0
  = eval 1 program_rbr
      (set_thread 0 (with_current Failure (mkThread 0 0 Invalid)) vm_rbr) 0.
Proof.
  apply (eval_forgets_current 1 program_rbr vm_rbr 0 (mkThread 0 0 Invalid)
           Success Failure).
  reflexivity.
Defined.

(** A thread whose [m_current] is Success on a [bra_t] with offset 9, and
    one whose [m_current] is Failure on a [neg]. *)
Lemma eval_branch_neg_witness :
  eval 1 (program_of [op_bra_t; 9]%Z) (vm_of [op_bra_t; 9]%Z Success) 0
  = ([], Returns (Running,
        set_thread 0 (mkThread 2 0 Invalid) (vm_of [op_bra_t; 9]%Z Success)))
  ∧ eval 1 (program_of [op_neg]) (vm_of [op_neg] Failure) 0
    = ([], Returns (Running,
          set_thread 0 (mkThread 1 0 Invalid) (vm_of [op_neg] Failure))).
Proof.
  split.
  - apply (proj1 (eval_branch_neg 0 (program_of [op_bra_t; 9]%Z)
                    (vm_of [op_bra_t; 9]%Z Success) 0 (mkThread 0 0 Success)
                    op_bra_t eq_refl eq_refl)).
    by right.
  - apply (proj2 (eval_branch_neg 0 (program_of [op_neg])
                    (vm_of [op_neg] Failure) 0 (mkThread 0 0 Failure)
                    op_neg eq_refl eq_refl)).
    reflexivity.
Defined.

Lemma eval_unknown_opcode_witness :
  eval 1 (program_of [42%Z]) (vm_of [42%Z] Success) 0
  = ([], Returns (Invalid,
        set_thread 0 (with_current Invalid (mkThread 0 0 Success))
          (vm_of [42%Z] Success)))
  ∧ eval 1 (program_of [42%Z])
      (set_thread 0 (with_current Invalid (mkThread 0 0 Success))
         (vm_of [42%Z] Success)) 0
    = ([], Returns (Invalid,
          set_thread 0 (with_current Invalid (mkThread 0 0 Success))
            (vm_of [42%Z] Success))).
Proof.
  apply (eval_unknown_opcode 0 0 (program_of [42%Z]) (vm_of [42%Z] Success) 0
           (mkThread 0 0 Success) 42%Z eq_refl eq_refl).
  right. lia.
Defined.

Lemma eval_run_thr_self_witness :
  eval 100 (program_of [op_run_thr; 0]%Z) (vm_of [op_run_thr; 0]%Z Invalid) 0
  = ([], OutOfFuel).
Proof.
  apply (eval_run_thr_self (program_of [op_run_thr; 0]%Z) 0 100
           (vm_of [op_run_thr; 0]%Z Invalid) (mkThread 0 0 Invalid));
    reflexivity.
Defined.

Lemma eval_same_shape_witness :
  length [mkThread 2 0 Failure] = length (m_threads vm_rbr)
  ∧ Some program_rbr = vm_program vm_rbr.
Proof.
  apply (eval_same_shape 1 program_rbr vm_rbr
           (mkVM (mkBoard ∅) (Some program_rbr) [mkThread 2 0 Failure] 1)
           0 [call_leaf 0] Running).
  reflexivity.
Defined.

Lemma eval_status_witness :
  Running = Running ∨ Running = Invalid
  ∨ (Running = Suspended ∧ [call_leaf 0] ≠ []).
Proof.
  apply (eval_status 1 program_rbr vm_rbr
           (mkVM (mkBoard ∅) (Some program_rbr) [mkThread 2 0 Failure] 1)
           0 [call_leaf 0] Running).
  reflexivity.
Defined.

End BTVM.

Module UtilityAI.

Section Utility.
(** What the host's conditions, scores and actions read and write. *)
Context {World : Type}.
(** The C++ [float] with the operations the code uses on it: the literal
    [0], [+=], and the comparisons [<] and [>].  They are parameters; what
    is proved of [eval] uses of [>] only that it is [strict] below, which
    the IEEE comparison is, NaN included. *)
Context {Float : Type} (zero : Float) (add : Float → Float → Float)
  (lt gt : Float → Float → bool).

(** [struct Scorer], ofxUtilityAI.h:11. *)
Record Scorer : Type := mkScorer {
  condition : World → bool * World;
  score : World → Float * World
}.

(** [Qualifier::Type], ofxUtilityAI.h:39. *)
Inductive Type_ : Type :=
| DefaultAction | FixedScore | AllOrNothing | SumOfChildren
| SumWhileAboveThreshold.

(** [struct Qualifier], ofxUtilityAI.h:38. *)
Record Qualifier : Type := mkQualifier {
  name : string;
  scorers : list Scorer;
  type : Type_;
  threshold : Float
}.

(** The three loops of [Qualifier::score], ofxUtilityAI.cpp:32, :43, :52,
    each with its running [sum]. *)
Fixpoint score_AllOrNothing (scorers : list Scorer) (sum : Float)
    (w : World) : Float * World :=
  match scorers with
  | [] => (sum, w)
  | scorer :: rest =>
      let '(c, w) := condition scorer w in
      if negb c then (zero, w)
      else let '(s, w) := score scorer w in
           score_AllOrNothing rest (add sum s) w
  end.

Fixpoint score_SumOfChildren (scorers : list Scorer) (sum : Float)
    (w : World) : Float * World :=
  match scorers with
  | [] => (sum, w)
  | scorer :: rest =>
      let '(c, w) := condition scorer w in
      if c then let '(s, w) := score scorer w in
                score_SumOfChildren rest (add sum s) w
      else score_SumOfChildren rest sum w
  end.

Fixpoint score_SumWhileAboveThreshold (threshold : Float)
    (scorers : list Scorer) (sum : Float) (w : World) : Float * World :=
  match scorers with
  | [] => (sum, w)
  | scorer :: rest =>
      let '(c, w) := condition scorer w in
      if c then let '(s, w) := score scorer w in
                if lt s threshold then (sum, w)
                else score_SumWhileAboveThreshold threshold rest (add sum s) w
      else score_SumWhileAboveThreshold threshold rest sum w
  end.

(** [Qualifier::score], ofxUtilityAI.cpp:22. *)
Definition Qualifier_score (this : Qualifier) (w : World) : Float * World :=
  match type this with
  | DefaultAction | FixedScore => (threshold this, w)
  | AllOrNothing => score_AllOrNothing (scorers this) zero w
  | SumOfChildren => score_SumOfChildren (scorers this) zero w
  | SumWhileAboveThreshold =>
      score_SumWhileAboveThreshold (threshold this) (scorers this) zero w
  end.

(** [Action], a non-empty [std::function<void()>]. *)
Definition Action : Type := World → World.
Definition QualifierActionPair : Type := Qualifier * Action.

(** [class Selector], ofxUtilityAI.h:82. *)
Record Selector : Type := mkSelector {
  qualifiers : list QualifierActionPair;
  defaultAction : QualifierActionPair
}.

(** The loop of [Selector::eval], ofxUtilityAI.cpp:11.  [chosen] is the
    pair the pointer points at, with its position in [qualifiers] ([None]
    for [defaultAction]); [i] is the position of the head of the list. *)
Fixpoint eval_loop (i : nat) (qualifiers : list QualifierActionPair)
    (chosen : option nat * QualifierActionPair) (currentScore : Float)
    (w : World) : (option nat * QualifierActionPair) * Float * World :=
  match qualifiers with
  | [] => (chosen, currentScore, w)
  | current :: rest =>
      let '(newScore, w) := Qualifier_score current.1 w in
      if gt newScore currentScore
      then eval_loop (S i) rest (Some i, current) newScore w
      else eval_loop (S i) rest chosen currentScore w
  end.

(** [Selector::eval], ofxUtilityAI.cpp:5: the calls to actions it makes,
    and the state it leaves. *)
Definition eval (this : Selector) (w : World) : list Call * World :=
  let '(chosen, _, w) :=
    eval_loop 0 (qualifiers this) (None, defaultAction this)
      (threshold (defaultAction this).1) w in
  ([call_run chosen.1], chosen.2.2 w).

(** The scores the loop of [eval] computes, in the order it computes
    them, and the state after the last one. *)
Fixpoint scan (qualifiers : list QualifierActionPair) (w : World)
    : list Float * World :=
  match qualifiers with
  | [] => ([], w)
  | current :: rest =>
      let '(newScore, w) := Qualifier_score current.1 w in
      let '(scores, w) := scan rest w in
      (newScore :: scores, w)
  end.

Definition scores (this : Selector) (w : World) : list Float :=
  (scan (qualifiers this) w).1.

(** [>] never holds between a value and itself, and chains. *)
Definition strict (gt : Float → Float → bool) : Prop :=
  (∀ x, gt x x = false)
  ∧ (∀ x y z, gt x y = true → gt y z = true → gt x z = true).

(** The loop, from any point: no score scanned exceeds the final best, and
    either nothing was replaced, or the choice is the pair at some
    position [k] of the scanned list, whose score is the final best,
    exceeds the best the loop started from, and differs from every score
    before it. *)
Lemma eval_loop_spec (qs : list QualifierActionPair) :
  strict gt →
  ∀ i chosen currentScore w,
    let r := eval_loop i qs chosen currentScore w in
    r.2 = (scan qs w).2
    ∧ (∀ j s, (scan qs w).1 !! j = Some s → gt s r.1.2 = false)
    ∧ ((r.1.1 = chosen ∧ r.1.2 = currentScore)
       ∨ (∃ k, r.1.1.1 = Some (i + k)
               ∧ qs !! k = Some r.1.1.2
               ∧ (scan qs w).1 !! k = Some r.1.2
               ∧ gt r.1.2 currentScore = true
               ∧ ∀ j s, j < k → (scan qs w).1 !! j = Some s → s ≠ r.1.2)).
Proof.
  intros [Hirrefl Htrans].
  induction qs as [|current rest IH]; intros i chosen cur w; simpl.
  - split; [done|]. split; [done|]. by left.
  - destruct (Qualifier_score current.1 w) as [s w1].
    destruct (gt s cur) eqn:Hgt.
    + specialize (IH (S i) (Some i, current) s w1).
      destruct (eval_loop (S i) rest (Some i, current) s w1)
        as [[chosen' best] w'].
      destruct (scan rest w1) as [ss w2]. simpl in *.
      destruct IH as (Hw & Hmax & Hchoice). split; [done|]. split.
      * intros [|j] s' Hj; simpl in Hj; [|by apply (Hmax j)].
        injection Hj as <-.
        destruct Hchoice as [[_ ->]|(k & _ & _ & _ & Hbest & _)]; [done|].
        destruct (gt s best) eqn:Hs; [|done].
        pose proof (Htrans _ _ _ Hs Hbest) as Hloop. by rewrite Hirrefl in Hloop.
      * right. destruct Hchoice as [[-> ->]|(k & Hk & Hqs & Hss & Hbest & Htie)].
        -- exists 0. rewrite Nat.add_0_r. repeat split; try done. lia.
        -- exists (S k). rewrite Nat.add_succ_r. repeat split; try done.
           { by apply (Htrans _ s). }
           intros [|j] s' Hlt Hj; simpl in Hj.
           ++ injection Hj as <-. intros Heq. rewrite <- Heq in Hbest.
              by rewrite Hirrefl in Hbest.
           ++ apply (Htie j); [lia | done].
    + specialize (IH (S i) chosen cur w1).
      destruct (eval_loop (S i) rest chosen cur w1) as [[chosen' best] w'].
      destruct (scan rest w1) as [ss w2]. simpl in *.
      destruct IH as (Hw & Hmax & Hchoice). split; [done|]. split.
      * intros [|j] s' Hj; simpl in Hj; [|by apply (Hmax j)].
        injection Hj as <-.
        destruct Hchoice as [[_ ->]|(k & _ & _ & _ & Hbest & _)]; [done|].
        destruct (gt s best) eqn:Hs; [|done].
        by rewrite (Htrans _ _ _ Hs Hbest) in Hgt.
      * destruct Hchoice as [?|(k & Hk & Hqs & Hss & Hbest & Htie)]; [by left|].
        right. exists (S k). rewrite Nat.add_succ_r. repeat split; try done.
        intros [|j] s' Hlt Hj; simpl in Hj.
        -- injection Hj as <-. intros Heq. rewrite <- Heq in Hbest.
           by rewrite Hbest in Hgt.
        -- apply (Htie j); [lia | done].
Qed.

(** C10. Whatever the qualifiers, [eval] makes exactly one call to an
    action, after the scan.  Either it is the default action, and then no
    scanned score exceeds the default qualifier's threshold; or it is the
    action of the qualifier at some position [i], whose score exceeds the
    default threshold, is exceeded by no scanned score, and differs from
    every score scanned before it: of equal scores the earlier keeps the
    choice.  When no score exceeds the default threshold the default
    action runs. *)
Theorem eval_chooses (this : Selector) (w : World) :
  strict gt →
  ∃ chosen action,
    eval this w = ([call_run chosen], action (scan (qualifiers this) w).2)
    ∧ ((chosen = None
        ∧ action = (defaultAction this).2
        ∧ ∀ j s, scores this w !! j = Some s →
                 gt s (threshold (defaultAction this).1) = false)
       ∨ (∃ i q s,
            chosen = Some i
            ∧ qualifiers this !! i = Some (q, action)
            ∧ scores this w !! i = Some s
            ∧ gt s (threshold (defaultAction this).1) = true
            ∧ (∀ j s', scores this w !! j = Some s' → gt s' s = false)
            ∧ (∀ j s', j < i → scores this w !! j = Some s' → s' ≠ s)))
    ∧ ((∀ j s, scores this w !! j = Some s →
               gt s (threshold (defaultAction this).1) = false) →
       chosen = None ∧ action = (defaultAction this).2).
Proof.
  intros Hstrict.
  pose proof (eval_loop_spec (qualifiers this) Hstrict 0
                (None, defaultAction this)
                (threshold (defaultAction this).1) w) as Hloop.
  unfold eval, scores.
  destruct (eval_loop 0 (qualifiers this) (None, defaultAction this)
              (threshold (defaultAction this).1) w)
    as [[[chosen pair] best] w'].
  simpl in Hloop. destruct Hloop as (-> & Hmax & Hchoice).
  exists chosen, pair.2. split; [done|].
  destruct Hchoice as [[[= -> ->] ->]|(k & -> & Hqs & Hss & Hbest & Htie)].
  - split; [left; by repeat split|]. by intros _.
  - split.
    + right. exists k, pair.1, best. destruct pair as [q a]. by repeat split.
    + intros Hnone. by rewrite (Hnone k best Hss) in Hbest.
Qed.

End Utility.

(** ** The theorem at a concrete selector

    Scores are integers; the state is the list of the names of the actions
    run, latest first. *)

Definition say (what : string) : @Action (list string) := λ w, what :: w.

Definition fixed (n : string) (t : Z) : @Qualifier (list string) Z :=
  mkQualifier n [] FixedScore t.

(** Two qualifiers tie at 5, above the default's 0; a third scores 3. *)
Definition tied : @Selector (list string) Z :=
  mkSelector
    [ (fixed "graze" 5, say "graze"); (fixed "flee" 5, say "flee");
      (fixed "rest" 3, say "rest") ]
    (mkQualifier "Default Action" [] DefaultAction 0%Z, say "idle").

Lemma Zgtb_strict : strict Z.gtb.
Proof.
  split.
  - intros x. rewrite Z.gtb_ltb. apply Z.ltb_irrefl.
  - intros x y z. rewrite !Z.gtb_ltb, !Z.ltb_lt. lia.
Qed.

Lemma eval_chooses_witness :
  eval 0%Z Z.add Z.ltb Z.gtb tied [] = ([call_run (Some 0)], ["graze"])
  ∧ ∃ chosen action,
      eval 0%Z Z.add Z.ltb Z.gtb tied []
      = ([call_run chosen],
         action (scan 0%Z Z.add Z.ltb (qualifiers tied) []).2)
      ∧ ((chosen = None
          ∧ action = (defaultAction tied).2
          ∧ ∀ j s, scores 0%Z Z.add Z.ltb tied [] !! j = Some s →
                   (s >? threshold (defaultAction tied).1)%Z = false)
         ∨ (∃ i q s,
              chosen = Some i
              ∧ qualifiers tied !! i = Some (q, action)
              ∧ scores 0%Z Z.add Z.ltb tied [] !! i = Some s
              ∧ (s >? threshold (defaultAction tied).1)%Z = true
              ∧ (∀ j s', scores 0%Z Z.add Z.ltb tied [] !! j = Some s' →
                         (s' >? s)%Z = false)
              ∧ (∀ j s', j < i →
                         scores 0%Z Z.add Z.ltb tied [] !! j = Some s' →
                         s' ≠ s)))
      ∧ ((∀ j s, scores 0%Z Z.add Z.ltb tied [] !! j = Some s →
                 (s >? threshold (defaultAction tied).1)%Z = false) →
         chosen = None ∧ action = (defaultAction tied).2).
Proof.
  split; [reflexivity|].
  exact (eval_chooses 0%Z Z.add Z.ltb Z.gtb tied [] Zgtb_strict).
Defined.

(** * What [Qualifier::score] computes *)

Section Scores.
Context {World : Type} {Float : Type} (zero : Float)
  (add : Float → Float → Float) (lt : Float → Float → bool).
Local Abbreviation Scorer := (@Scorer World Float).
Local Abbreviation Qualifier := (@Qualifier World Float).

(** A scorer whose two callables only read. *)
Definition steady (scorer : Scorer) : Prop :=
  ∀ w, (condition scorer w).2 = w ∧ (score scorer w).2 = w.

(** What the callables of a scorer answer in [w]. *)
Definition enabled (w : World) (scorer : Scorer) : bool := (condition scorer w).1.
Definition value (w : World) (scorer : Scorer) : Float := (score scorer w).1.

(** [sum] with the values of [scorers] added to it, first to last. *)
Definition total (w : World) (sum : Float) (scorers : list Scorer) : Float :=
  foldl add sum (value w <$> scorers).

(** The scorers before the first whose value is below [threshold]. *)
Fixpoint above_prefix (w : World) (threshold : Float) (scorers : list Scorer)
    : list Scorer :=
  match scorers with
  | [] => []
  | scorer :: rest =>
      if lt (value w scorer) threshold then []
      else scorer :: above_prefix w threshold rest
  end.

Lemma steady_calls (scorer : Scorer) (w : World) :
  steady scorer →
  condition scorer w = (enabled w scorer, w)
  ∧ score scorer w = (value w scorer, w).
Proof.
  intros Hs. destruct (Hs w) as [Hc Hv]. unfold enabled, value.
  destruct (condition scorer w), (score scorer w). simpl in *. by subst.
Qed.

Lemma score_AllOrNothing_steady (scorers : list Scorer) (sum : Float) (w : World) :
  Forall steady scorers →
  score_AllOrNothing zero add scorers sum w
  = (if forallb (enabled w) scorers then total w sum scorers else zero, w).
Proof.
  intros Hall. revert sum. induction Hall as [|scorer rest Hs _ IH];
    intros sum; [done|].
  destruct (steady_calls scorer w Hs) as [Hc Hv]. simpl. rewrite Hc.
  destruct (enabled w scorer); simpl; [|done]. rewrite Hv. apply IH.
Qed.

Lemma score_SumOfChildren_steady (scorers : list Scorer) (sum : Float) (w : World) :
  Forall steady scorers →
  score_SumOfChildren add scorers sum w
  = (total w sum (filter (λ s, enabled w s = true) scorers), w).
Proof.
  intros Hall. revert sum. induction Hall as [|scorer rest Hs _ IH];
    intros sum; [done|].
  destruct (steady_calls scorer w Hs) as [Hc Hv]. simpl.
  rewrite Hc, filter_cons.
  destruct (decide (enabled w scorer = true)) as [E|E].
  - rewrite E, Hv. apply IH.
  - apply not_true_is_false in E. rewrite E. apply IH.
Qed.

Lemma score_SumWhileAboveThreshold_steady (threshold : Float)
    (scorers : list Scorer) (sum : Float) (w : World) :
  Forall steady scorers →
  score_SumWhileAboveThreshold add lt threshold scorers sum w
  = (total w sum
       (above_prefix w threshold (filter (λ s, enabled w s = true) scorers)),
     w).
Proof.
  intros Hall. revert sum. induction Hall as [|scorer rest Hs _ IH];
    intros sum; [done|].
  destruct (steady_calls scorer w Hs) as [Hc Hv]. simpl.
  rewrite Hc, filter_cons.
  destruct (decide (enabled w scorer = true)) as [E|E].
  - rewrite E, Hv. simpl. destruct (lt (value w scorer) threshold); [done|].
    apply IH.
  - apply not_true_is_false in E. rewrite E. apply IH.
Qed.

(** X23. The score of a qualifier whose scorers only read, in a state
    [w]: the state is left as it was, and the score is the threshold for
    a fixed-score or default qualifier; for all-or-nothing the sum of all
    values when every condition holds and zero otherwise; for
    sum-of-children the sum of the values of the scorers whose condition
    holds; for sum-while-above-threshold the sum of those values up to the
    first that is below the threshold.  The threshold plays no part in
    the all-or-nothing and sum-of-children scores. *)
Theorem Qualifier_score_steady (this : Qualifier) (w : World) :
  Forall steady (scorers this) →
  Qualifier_score zero add lt this w
  = (match type this with
     | DefaultAction | FixedScore => threshold this
     | AllOrNothing =>
         if forallb (enabled w) (scorers this)
         then total w zero (scorers this) else zero
     | SumOfChildren =>
         total w zero (filter (λ s, enabled w s = true) (scorers this))
     | SumWhileAboveThreshold =>
         total w zero
           (above_prefix w (threshold this)
              (filter (λ s, enabled w s = true) (scorers this)))
     end, w).
Proof.
  intros Hall. unfold Qualifier_score. destruct (type this); try done.
  - by apply score_AllOrNothing_steady.
  - by apply score_SumOfChildren_steady.
  - by apply score_SumWhileAboveThreshold_steady.
Qed.

End Scores.

(** ** The theorem above at a concrete qualifier *)

Definition constant (v : Z) (c : bool) : @Scorer (list string) Z :=
  mkScorer (λ w, (c, w)) (λ w, (v, w)).

(** Enabled values 5, 2, 7 under threshold 3: only the 5 counts. *)
Definition while_above : @Qualifier (list string) Z :=
  mkQualifier "hunt"
    [constant 5 true; constant 4 false; constant 2 true; constant 7 true]
    SumWhileAboveThreshold 3%Z.

Lemma Qualifier_score_steady_witness :
  Qualifier_score 0%Z Z.add Z.ltb while_above [] = (5%Z, []).
Proof.
  apply (Qualifier_score_steady 0%Z Z.add Z.ltb while_above []).
  repeat constructor.
Defined.

End UtilityAI.
